(** * Batch regex rewriters for the TUnit to xUnit migration

    A shallow embedding of the four migration scripts
    ([convert-tunit-to-xunit.py], [fix-remaining-xunit-issues.py],
    [fix-final-assertions.py], [fix-xunit-warnings.py]) and the proofs of
    the properties their specification states.

    Layout:
    - [PyStr]: the Python [str] methods the scripts call;
    - [Re]: a backtracking matcher for the fragment of Python's [re]
      the patterns use, and [re.sub];
    - [IO]: files on disk, console output, exceptions;
    - one module per script;
    - the theorems.

    File text is a list of characters.  A character is a code point
    below 256 (the type [ascii] read as Latin-1), and the classes [\w],
    [\d] and [\s] are those of Python's [re] for [str] patterns on that
    range. *)

From Stdlib Require Import Ascii String ZArith Lia.
From stdpp Require Import gmap list.

Local Open Scope Z_scope.
Local Open Scope nat_scope.

Definition text := list ascii.

(** [txt "abc"] is the text of a literal. *)
Definition txt (s : string) : text := list_ascii_of_string s.

(** The double quote, the line feed and the carriage return. *)
Definition dq : ascii := ascii_of_nat 34.
Definition nl : ascii := ascii_of_nat 10.
Definition cr : ascii := ascii_of_nat 13.

(** [py "..."] is the text of a Python literal in which a double quote
    is written as a backquote (no literal of the scripts has one). *)
Definition py (s : string) : text :=
  map (fun a => if Ascii.eqb a "`" then dq else a) (list_ascii_of_string s).

(** ** Python [str] methods *)
Module PyStr.

(** [s.startswith(p)], returning what follows the prefix. *)
Fixpoint strip_prefix (p s : text) : option text :=
  match p with
  | [] => Some s
  | a :: p' =>
      match s with
      | [] => None
      | b :: s' => if Ascii.eqb a b then strip_prefix p' s' else None
      end
  end.

Definition startswith (s p : text) : bool :=
  match strip_prefix p s with Some _ => true | None => false end.

(** [p in s]. *)
Fixpoint contains (p s : text) : bool :=
  if startswith s p then true
  else match s with
       | [] => false
       | _ :: s' => contains p s'
       end.

(** [s.count(c)] for a one-character [c]. *)
Fixpoint count (c : ascii) (s : text) : nat :=
  match s with
  | [] => 0
  | a :: s' => (if Ascii.eqb a c then 1 else 0) + count c s'
  end.

(** [s.replace(old, new)] for a non-empty [old]: the occurrences are
    taken from the left and do not overlap. *)
Fixpoint replace_from (fuel : nat) (old new s : text) : text :=
  match fuel with
  | 0 => s
  | S fuel' =>
      match s with
      | [] => []
      | a :: s' =>
          match strip_prefix old s with
          | Some rest => new ++ replace_from fuel' old new rest
          | None => a :: replace_from fuel' old new s'
          end
      end
  end.

Definition replace (old new s : text) : text :=
  match old with
  | [] => s
  | _ => replace_from (length s) old new s
  end.

(** [s.split(c)] for a one-character separator. *)
Fixpoint split (c : ascii) (s : text) : list text :=
  match s with
  | [] => [[]]
  | a :: s' =>
      if Ascii.eqb a c then [] :: split c s'
      else match split c s' with
           | l :: ls => (a :: l) :: ls
           | [] => [[a]]
           end
  end.

(** [sep.join(ls)]. *)
Fixpoint join (sep : text) (ls : list text) : text :=
  match ls with
  | [] => []
  | [l] => l
  | l :: ls' => l ++ sep ++ join sep ls'
  end.

(** [ls.insert(i, x)]: an index past the end appends. *)
Definition list_insert_at {A} (i : nat) (x : A) (ls : list A) : list A :=
  take i ls ++ x :: drop i ls.

(** [ls[i:j]]. *)
Definition slice {A} (ls : list A) (i j : nat) : list A :=
  take (j - i) (drop i ls).

(** [os.path.basename(p)]: what follows the last slash. *)
Definition basename (p : text) : text := List.last (split "/" p) [].

End PyStr.

(** ** The fragment of Python's [re] that the patterns use *)
Module Re.

Inductive cclass :=
| Bracket (negated : bool) (ranges : list (ascii * ascii))  (* [a-bc], [^c] *)
| Word                                                      (* \w *)
| Digit                                                     (* \d *)
| Space.                                                    (* \s *)

Definition between (lo hi a : ascii) : bool :=
  Ascii.leb lo a && Ascii.leb a hi.

(** [a] lies in one of the ranges of code points. *)
Definition in_ranges (ranges : list (nat * nat)) (a : ascii) : bool :=
  existsb (fun r => (fst r <=? nat_of_ascii a) && (nat_of_ascii a <=? snd r))
    ranges.

Definition is_digit (a : ascii) : bool := between "0" "9" a.
Definition is_letter (a : ascii) : bool :=
  between "A" "Z" a || between "a" "z" a.

(** [\w]: the characters for which [str.isalnum] holds, and the
    underscore. *)
Definition is_word (a : ascii) : bool :=
  in_ranges [(48, 57); (65, 90); (95, 95); (97, 122); (170, 170); (178, 179);
             (181, 181); (185, 186); (188, 190); (192, 214); (216, 246);
             (248, 255)] a.

(** [\s]: the characters for which [str.isspace] holds. *)
Definition is_space (a : ascii) : bool :=
  in_ranges [(9, 13); (28, 32); (133, 133); (160, 160)] a.

Definition in_class (c : cclass) (a : ascii) : bool :=
  match c with
  | Bracket negated ranges =>
      xorb negated (existsb (fun r => between (fst r) (snd r) a) ranges)
  | Word => is_word a
  | Digit => is_digit a
  | Space => is_space a
  end.

Inductive regex :=
| Lit (l : text)               (* a run of literal characters *)
| Cls (c : cclass)
| Seq (r1 r2 : regex)
| Alt (r1 r2 : regex)          (* r1|r2 *)
| Opt (r : regex)              (* r? *)
| Star (r : regex)             (* r* *)
| Plus (r : regex)             (* r+ *)
| Grp (n : nat) (r : regex).   (* the n-th capturing group *)

(** *** Parsing a pattern *)

Inductive parse_error :=
| Unbalanced       (* re.error: unbalanced parenthesis *)
| Unterminated     (* re.error: missing ), unterminated set, bad escape *)
| Unsupported.     (* syntax outside the fragment *)

Inductive parsed (A : Type) :=
| Parsed (a : A)
| Failed (e : parse_error).
Arguments Parsed {A} a.
Arguments Failed {A} e.

(** Adjacent literals are one run. *)
Definition seq (r1 r2 : regex) : regex :=
  match r1, r2 with
  | Lit a, Lit b => Lit (a ++ b)
  | Lit a, Seq (Lit b) r => Seq (Lit (a ++ b)) r
  | _, Lit [] => r1
  | _, _ => Seq r1 r2
  end.

(** The items of a bracket set up to the closing bracket. *)
Fixpoint parse_set (s : text) (acc : list (ascii * ascii))
  : parsed (list (ascii * ascii) * text) :=
  match s with
  | [] => Failed Unterminated
  | "]"%char :: rest => Parsed (rev acc, rest)
  | "\"%char :: c :: rest =>
      if is_letter c || is_digit c then Failed Unsupported
      else parse_set rest ((c, c) :: acc)
  | "\"%char :: [] => Failed Unterminated
  | c :: "-"%char :: d :: rest =>
      if Ascii.eqb d "]" || Ascii.eqb d "\" then Failed Unsupported
      else parse_set rest ((c, d) :: acc)
  | c :: rest => parse_set rest ((c, c) :: acc)
  end.

(** The quantifier that follows an atom, if any. *)
Definition parse_quantifier (atom : regex) (s : text)
  : parsed (regex * text) :=
  let is_quantifier c :=
    Ascii.eqb c "+" || Ascii.eqb c "*" || Ascii.eqb c "?" || Ascii.eqb c "{" in
  let checked r rest :=
    match rest with
    | c :: _ => if is_quantifier c then Failed Unsupported else Parsed (r, rest)
    | [] => Parsed (r, rest)
    end in
  match s with
  | "+"%char :: rest => checked (Plus atom) rest
  | "*"%char :: rest => checked (Star atom) rest
  | "?"%char :: rest => checked (Opt atom) rest
  | "{"%char :: _ => Failed Unsupported
  | _ => Parsed (atom, s)
  end.

(** Recursive descent: alternatives, sequences, atoms.  [g] is the number
    of the next capturing group; groups are numbered by their opening
    parenthesis. *)
Fixpoint parse_alt (fuel : nat) (s : text) (g : nat)
  : parsed (regex * text * nat) :=
  match fuel with
  | 0 => Failed Unsupported
  | S fuel =>
      match parse_seq fuel s g with
      | Failed e => Failed e
      | Parsed (r1, "|"%char :: rest, g1) =>
          match parse_alt fuel rest g1 with
          | Failed e => Failed e
          | Parsed (r2, rest2, g2) => Parsed (Alt r1 r2, rest2, g2)
          end
      | Parsed (r1, rest, g1) => Parsed (r1, rest, g1)
      end
  end
with parse_seq (fuel : nat) (s : text) (g : nat)
  : parsed (regex * text * nat) :=
  match fuel with
  | 0 => Failed Unsupported
  | S fuel =>
      match s with
      | [] => Parsed (Lit [], s, g)
      | "|"%char :: _ => Parsed (Lit [], s, g)
      | ")"%char :: _ => Parsed (Lit [], s, g)
      | _ =>
          match parse_atom fuel s g with
          | Failed e => Failed e
          | Parsed (atom, rest, g1) =>
              match parse_quantifier atom rest with
              | Failed e => Failed e
              | Parsed (r1, rest1) =>
                  match parse_seq fuel rest1 g1 with
                  | Failed e => Failed e
                  | Parsed (r2, rest2, g2) => Parsed (seq r1 r2, rest2, g2)
                  end
              end
          end
      end
  end
with parse_atom (fuel : nat) (s : text) (g : nat)
  : parsed (regex * text * nat) :=
  match fuel with
  | 0 => Failed Unsupported
  | S fuel =>
      match s with
      | [] => Failed Unsupported
      | "("%char :: "?"%char :: _ => Failed Unsupported
      | "("%char :: rest =>
          match parse_alt fuel rest (S g) with
          | Failed e => Failed e
          | Parsed (r, ")"%char :: rest1, g1) => Parsed (Grp g r, rest1, g1)
          | Parsed _ => Failed Unterminated
          end
      | "["%char :: "^"%char :: rest =>
          match parse_set rest [] with
          | Failed e => Failed e
          | Parsed (ranges, rest1) => Parsed (Cls (Bracket true ranges), rest1, g)
          end
      | "["%char :: rest =>
          match parse_set rest [] with
          | Failed e => Failed e
          | Parsed (ranges, rest1) => Parsed (Cls (Bracket false ranges), rest1, g)
          end
      | "\"%char :: c :: rest =>
          if Ascii.eqb c "w" then Parsed (Cls Word, rest, g)
          else if Ascii.eqb c "d" then Parsed (Cls Digit, rest, g)
          else if Ascii.eqb c "s" then Parsed (Cls Space, rest, g)
          else if Ascii.eqb c "n" then Parsed (Lit [nl], rest, g)
          else if is_letter c || is_digit c then Failed Unsupported
          else Parsed (Lit [c], rest, g)
      | "\"%char :: [] => Failed Unterminated
      | c :: rest =>
          if existsb (Ascii.eqb c) (txt ".^$*+?{") then Failed Unsupported
          else Parsed (Lit [c], rest, g)
      end
  end.

(** [re.compile(p)] *)
Definition compile (p : text) : parsed regex :=
  match parse_alt (4 * length p + 4) p 1 with
  | Failed e => Failed e
  | Parsed (r, [], _) => Parsed r
  | Parsed (_, ")"%char :: _, _) => Failed Unbalanced
  | Parsed _ => Failed Unsupported
  end.

(** *** Matching *)

(** The groups captured so far, the latest first. *)
Definition caps := list (nat * text).

Fixpoint group (c : caps) (n : nat) : text :=
  match c with
  | [] => []
  | (m, t) :: c' => if Nat.eqb m n then t else group c' n
  end.

Definition cont := text -> caps -> option (text * caps).
Definition matcher := text -> caps -> cont -> option (text * caps).

(** Greedy repetition: one more round first, and only when that fails
    the rest of the pattern.  A round that consumes nothing is refused. *)
Fixpoint repeat_greedy (m : matcher) (fuel : nat) : matcher :=
  fun s c k =>
    match fuel with
    | 0 => k s c
    | S fuel' =>
        match m s c (fun s' c' =>
                       if length s' <? length s
                       then repeat_greedy m fuel' s' c' k
                       else None) with
        | Some res => Some res
        | None => k s c
        end
    end.

(** The backtracking matcher, in continuation-passing style: [k] is the
    rest of the pattern, and the first alternative whose continuation
    succeeds wins. *)
Fixpoint rmatch (r : regex) : matcher :=
  fun s c k =>
    match r with
    | Lit l =>
        match PyStr.strip_prefix l s with
        | Some s' => k s' c
        | None => None
        end
    | Cls cl =>
        match s with
        | a :: s' => if in_class cl a then k s' c else None
        | [] => None
        end
    | Seq r1 r2 => rmatch r1 s c (fun s' c' => rmatch r2 s' c' k)
    | Alt r1 r2 =>
        match rmatch r1 s c k with
        | Some res => Some res
        | None => rmatch r2 s c k
        end
    | Opt r1 =>
        match rmatch r1 s c k with
        | Some res => Some res
        | None => k s c
        end
    | Star r1 => repeat_greedy (rmatch r1) (length s) s c k
    | Plus r1 =>
        rmatch r1 s c
          (fun s' c' => repeat_greedy (rmatch r1) (length s') s' c' k)
    | Grp n r1 =>
        rmatch r1 s c
          (fun s' c' => k s' ((n, take (length s - length s') s) :: c'))
    end.

(** A match attempt at the start of [s]: what is left after the match,
    and the groups.  With [must_advance] an empty match is refused. *)
Definition match_here (r : regex) (must_advance : bool) (s : text)
  : option (text * caps) :=
  rmatch r s []
    (fun s' c =>
       if must_advance && (length s' =? length s) then None
       else Some (s', c)).

(** [re.search(r, s) is not None] *)
Fixpoint search (r : regex) (s : text) : bool :=
  match match_here r false s with
  | Some _ => true
  | None => match s with [] => false | _ :: s' => search r s' end
  end.

(** The scan of [re.sub]: it goes from left to right; a match is
    replaced by [repl] of the matched text and its groups, and the scan
    resumes after it; where nothing matches one character is copied.
    After an empty match the next one has to advance. *)
Fixpoint sub_from (fuel : nat) (r : regex) (repl : text -> caps -> text)
    (must_advance : bool) (s : text) : text :=
  match fuel with
  | 0 => s
  | S fuel' =>
      match match_here r must_advance s with
      | Some (rest, c) =>
          repl (take (length s - length rest) s) c
          ++ sub_from fuel' r repl (length rest =? length s) rest
      | None =>
          match s with
          | [] => []
          | a :: s' => a :: sub_from fuel' r repl false s'
          end
      end
  end.

Definition sub_with (r : regex) (repl : text -> caps -> text) (s : text)
  : text :=
  sub_from (2 * length s + 2) r repl false s.

(** *** Replacement templates: literal text and group references *)
Inductive titem :=
| TLit (a : ascii)
| TRef (n : nat).

Definition template := list titem.

(** A backslash and one digit is a group reference; any other backslash
    is outside the fragment. *)
Fixpoint parse_template (t : text) : option template :=
  match t with
  | [] => Some []
  | "\"%char :: d :: rest =>
      if is_digit d then
        match rest with
        | d' :: _ =>
            if is_digit d' then None
            else cons (TRef (nat_of_ascii d - 48)) <$> parse_template rest
        | [] => Some [TRef (nat_of_ascii d - 48)]
        end
      else None
  | "\"%char :: [] => None
  | a :: rest => cons (TLit a) <$> parse_template rest
  end.

Definition expand (t : template) (c : caps) : text :=
  flat_map (fun i => match i with TLit a => [a] | TRef n => group c n end) t.

End Re.

(** ** Files, console and exceptions *)
Module IO.

Definition path := text.

(** A file on disk: its characters, whether it can be opened for
    reading, whether its bytes decode, and whether it can be opened for
    writing. *)
Record file := File {
  data : text;
  readable : bool;
  decodable : bool;
  writable : bool
}.

Inductive exn :=
| FileNotFoundError (p : path)
| PermissionError (p : path)
| UnicodeDecodeError (p : path)
| ReError (pattern : text) (e : Re.parse_error).

(** Reading in text mode turns every carriage return with its line feed,
    and every other carriage return, into a line feed. *)
Fixpoint universal_newlines (s : text) : text :=
  match s with
  | [] => []
  | a :: rest =>
      if Ascii.eqb a cr then
        match rest with
        | b :: rest' =>
            if Ascii.eqb b nl then nl :: universal_newlines rest'
            else nl :: universal_newlines rest
        | [] => [nl]
        end
      else a :: universal_newlines rest
  end.

(** What [f.read()] returns for the file. *)
Definition text_of (f : file) : text := universal_newlines (data f).

(** The lines the scripts print, one constructor per format string. *)
Inductive message :=
| Converting (p : path)
| SkippingNoTUnit (p : path)
| Converted (p : path)
| ErrorConverting (p : path) (e : exn)
| ConvertingFiles (n : nat)
| ConversionComplete
| NextSteps
| Fixing (p : path)
| FixedMark (p : path)
| NoChangesMark (p : path)
| ErrorFixingMark (p : path) (e : exn)
| FixingFiles (n : nat)
| FixesComplete
| NextStep
| Fixed (p : path)
| NoChangesNeeded (p : path)
| ErrorFixing (p : path) (e : exn)
| FixedFiles (n : nat)
| Done.

Inductive event :=
| Read (p : path)
| Write (p : path) (c : text)
| Print (m : message).

(** The world a script runs in: the disk and the trace of what it did. *)
Record world := World { disk : gmap path file; trace : list event }.

Definition emit (e : event) (w : world) : world :=
  World (disk w) (trace w ++ [e]).

Inductive result (A : Type) :=
| Ok (a : A)
| Raise (e : exn).
Arguments Ok {A} a.
Arguments Raise {A} e.

#[global] Instance result_ret : MRet result := @Ok.
#[global] Instance result_bind : MBind result :=
  fun A B f m => match m with Ok a => f a | Raise e => Raise e end.

Definition M (A : Type) := world -> result A * world.

(** A computation in memory, inside a script. *)
Definition lift {A} (r : result A) : M A := fun w => (r, w).

Definition ret {A} (a : A) : M A := fun w => (Ok a, w).

Definition bind {A B} (m : M A) (f : A -> M B) : M B :=
  fun w =>
    match m w with
    | (Ok a, w') => f a w'
    | (Raise e, w') => (Raise e, w')
    end.

(** [try: m except Exception as e: h e]. *)
Definition try_except {A} (m : M A) (h : exn -> M A) : M A :=
  fun w =>
    match m w with
    | (Ok a, w') => (Ok a, w')
    | (Raise e, w') => h e w'
    end.

Definition print (m : message) : M unit :=
  fun w => (Ok tt, emit (Print m) w).

(** [with open(p, 'r') as f: f.read()]: opening raises for a file that
    is missing or locked, reading raises for bytes that do not decode. *)
Definition read_file (p : path) : M text :=
  fun w =>
    match disk w !! p with
    | None => (Raise (FileNotFoundError p), w)
    | Some f =>
        if readable f then
          if decodable f then (Ok (text_of f), emit (Read p) w)
          else (Raise (UnicodeDecodeError p), emit (Read p) w)
        else (Raise (PermissionError p), w)
    end.

(** [with open(p, 'w') as f: f.write(c)]: a missing file is created; the
    line feeds are written as they are. *)
Definition write_file (p : path) (c : text) : M unit :=
  fun w =>
    match disk w !! p with
    | None =>
        (Ok tt,
         emit (Write p c)
           (World (<[p := File c true true true]> (disk w)) (trace w)))
    | Some f =>
        if writable f
        then (Ok tt,
              emit (Write p c)
                (World (<[p := File c (readable f) true true]> (disk w))
                   (trace w)))
        else (Raise (PermissionError p), w)
    end.

#[global] Instance M_ret : MRet M := @ret.
#[global] Instance M_bind : MBind M := fun A B f m => bind m f.

(** [for x in l: body x]. *)
Fixpoint for_each {A} (l : list A) (body : A -> M unit) : M unit :=
  match l with
  | [] => mret tt
  | x :: l' => body x ;; for_each l' body
  end.

End IO.



Import PyStr Re IO.

(** [re.sub(pattern, repl, content)] with [repl] a function of the match. *)
Definition re_sub_with (pattern : text) (repl : text -> caps -> text)
    (content : text) : result text :=
  match compile pattern with
  | Parsed r => Ok (sub_with r repl content)
  | Failed e => Raise (ReError pattern e)
  end.

(** [re.sub(pattern, repl, content)] with [repl] a template. *)
Definition re_sub (pattern repl content : text) : result text :=
  match compile pattern with
  | Parsed r =>
      match parse_template repl with
      | Some t => Ok (sub_with r (fun _ c => expand t c) content)
      | None => Raise (ReError repl Unsupported)
      end
  | Failed e => Raise (ReError pattern e)
  end.

(** A substitution rule: a pattern and its replacement template. *)
Record rule := Rule { pattern : text; replacement : text }.

(** [content = re.sub(...)] for the rules of a list, one after the other. *)
Fixpoint apply_rules (rules : list rule) (content : text) : result text :=
  match rules with
  | [] => Ok content
  | r :: rules' =>
      content ← re_sub (pattern r) (replacement r) content;
      apply_rules rules' content
  end.

(** The infrastructure files that no script is to touch. *)
Definition skip_files : list text :=
  [txt "InMemoryAnalysisService.cs"; txt "InMemoryProjectGenerator.cs";
   txt "TestSetup.cs"].

(** ** convert-tunit-to-xunit.py *)
Module Convert.

Definition triggers : list text :=
  [txt "[Test]"; txt "await Assert.That"; txt "TUnit"].

(** [any(pattern in content for pattern in [...])] *)
Definition has_tunit_syntax (content : text) : bool :=
  existsb (fun pattern => contains pattern content) triggers.

(** 1. Update using statements. *)
Definition using_rules : list rule :=
  [ Rule (py "using TUnit\.Core;?\s*\n") (py "");
    Rule (py "using TUnit\.Assertions;?\s*\n") (py "");
    Rule (py "using TUnit\.Assertions\.Extensions;?\s*\n") (py "") ].

(** The [for i, line in enumerate(lines)] loop that looks for the place of
    [using Xunit;]: [i] is the index of the head of [lines]. *)
Fixpoint find_insert_index (lines : list text) (i insert_index : nat) : nat :=
  match lines with
  | [] => insert_index
  | line :: rest =>
      if startswith line (txt "using ")
         && negb (startswith line (txt "using Xunit"))
      then find_insert_index rest (S i) (i + 1)
      else if startswith line (txt "namespace ") then insert_index
      else find_insert_index rest (S i) insert_index
  end.

Definition ensure_xunit_using (content : text) : text :=
  if contains (txt "[Test]") content || contains (txt "[Fact]") content then
    if negb (contains (txt "using Xunit;") content) then
      let lines := split nl content in
      let insert_index := find_insert_index lines 0 0 in
      join [nl] (list_insert_at insert_index (txt "using Xunit;") lines)
    else content
  else content.

(** 2. to 4.: attributes, signatures and assertions. *)
Definition conversion_rules : list rule :=
  [ Rule (py "\[Test\]") (py "[Fact]");
    Rule (py "\[TestMethod\]") (py "[Fact]");
    Rule (py "public async void (\w+)\(\)") (py "public void \1()");
    Rule (py "public async Task (\w+)\(\)") (py "public async Task \1()");
    Rule (py "await Assert\.That\(([^)]+)\)\.IsEqualTo\(([^)]+)\);")
         (py "Assert.Equal(\2, \1);");
    Rule (py "await Assert\.That\(([^)]+)\)\.IsNotEqualTo\(([^)]+)\);")
         (py "Assert.NotEqual(\2, \1);");
    Rule (py "await Assert\.That\(([^)]+)\)\.IsNotNull\(\);")
         (py "Assert.NotNull(\1);");
    Rule (py "await Assert\.That\(([^)]+)\)\.IsNull\(\);")
         (py "Assert.Null(\1);");
    Rule (py "await Assert\.That\(([^)]+)\)\.IsTrue\(\);")
         (py "Assert.True(\1);");
    Rule (py "await Assert\.That\(([^)]+)\)\.IsFalse\(\);")
         (py "Assert.False(\1);");
    Rule (py "await Assert\.That\(([^)]+)\)\.IsGreaterThan\(([^)]+)\);")
         (py "Assert.True(\1 > \2);");
    Rule (py "await Assert\.That\(([^)]+)\)\.IsGreaterThanOrEqualTo\(([^)]+)\);")
         (py "Assert.True(\1 >= \2);");
    Rule (py "await Assert\.That\(([^)]+)\)\.IsLessThan\(([^)]+)\);")
         (py "Assert.True(\1 < \2);");
    Rule (py "await Assert\.That\(([^)]+)\)\.IsLessThanOrEqualTo\(([^)]+)\);")
         (py "Assert.True(\1 <= \2);");
    Rule (py "await Assert\.That\(([^)]+)\)\.Contains\(([^)]+)\);")
         (py "Assert.Contains(\2, \1);");
    Rule (py "await Assert\.That\(([^)]+)\)\.DoesNotContain\(([^)]+)\);")
         (py "Assert.DoesNotContain(\2, \1);");
    Rule (py "await Assert\.That\(([^)]+)\)\.IsEmpty\(\);")
         (py "Assert.Empty(\1);");
    Rule (py "await Assert\.That\(([^)]+)\)\.IsNotEmpty\(\);")
         (py "Assert.NotEmpty(\1);");
    Rule (py "await Assert\.That\(([^)]+)\)\.HasCount\(([^)]+)\);")
         (py "Assert.Equal(\2, \1.Count);");
    Rule (py "Assert\.Equal\(0, ([^)]+)\.Count\);") (py "Assert.Empty(\1);");
    Rule (py "Assert\.Equal\(1, ([^)]+)\.Count\);") (py "Assert.Single(\1);");
    Rule (py "await Assert\.That\(([^)]+)\)\.IsTypeOf<([^>]+)>\(\);")
         (py "Assert.IsType<\2>(\1);");
    Rule (py "await Assert\.That\(([^)]+)\)\.IsAssignableFrom<([^>]+)>\(\);")
         (py "Assert.IsAssignableFrom<\2>(\1);") ].

(** 5. What is left of [await Assert.That]. *)
Definition replace_multiline_assertions (full_match : text) : text :=
  if contains (txt ".IsEqualTo(") full_match then
    replace (txt ").IsEqualTo(") (txt ", ")
      (replace (txt "await Assert.That(") (txt "Assert.Equal(") full_match)
  else if contains (txt ".IsNotNull()") full_match then
    replace (txt ").IsNotNull();") (txt ");")
      (replace (txt "await Assert.That(") (txt "Assert.NotNull(") full_match)
  else if contains (txt ".IsTrue()") full_match then
    replace (txt ").IsTrue();") (txt ");")
      (replace (txt "await Assert.That(") (txt "Assert.True(") full_match)
  else if contains (txt ".IsFalse()") full_match then
    replace (txt ").IsFalse();") (txt ");")
      (replace (txt "await Assert.That(") (txt "Assert.False(") full_match)
  else full_match.

Definition convert_remaining (content : text) : result text :=
  re_sub_with (py "await Assert\.That\([^;]+\);")
    (fun full_match _ => replace_multiline_assertions full_match) content.

(** 6. The [for j in range(method_start, len(lines))] loop: [rest] is
    [lines[j:]]; the result is [method_end]. *)
Fixpoint find_method_end (rest : list text) (j : nat) (brace_count : Z)
    (found_start : bool) (method_end : nat) : nat :=
  match rest with
  | [] => method_end
  | line :: rest' =>
      let '(brace_count, found_start) :=
        if contains (txt "{") line
        then ((brace_count + Z.of_nat (count "{" line))%Z, true)
        else (brace_count, found_start) in
      let brace_count :=
        if contains (txt "}") line
        then (brace_count - Z.of_nat (count "}" line))%Z
        else brace_count in
      if found_start && (brace_count =? 0)%Z then j
      else find_method_end rest' (S j) brace_count found_start method_end
  end.

(** The body of the outer loop at index [i], where [lines[i]] is [line]. *)
Definition drop_async_at (lines : list text) (i : nat) (line : text)
  : list text :=
  if contains (txt "public async Task") line && contains (txt "()") line then
    let method_start := i in
    let method_end :=
      find_method_end (drop method_start lines) method_start 0%Z false
        method_start in
    let method_content :=
      join [nl] (slice lines method_start (method_end + 1)) in
    if negb (contains (txt "await ") method_content) then
      <[i := replace (txt "public async Task") (txt "public void") line]> lines
    else lines
  else lines.

(** [for i, line in enumerate(lines)], with [lines] updated in place:
    [n] rounds are left and the next index is [i]. *)
Fixpoint drop_async_loop (n i : nat) (lines : list text) : list text :=
  match n with
  | 0 => lines
  | S n' =>
      match lines !! i with
      | Some line => drop_async_loop n' (S i) (drop_async_at lines i line)
      | None => lines
      end
  end.

Definition drop_unneeded_async (content : text) : text :=
  let lines := split nl content in
  join [nl] (drop_async_loop (length lines) 0 lines).

(** 7. Duplicate using lines are dropped; [seen_usings] is the set of the
    using lines met so far. *)
Fixpoint filter_usings (lines : list text) (seen_usings : gset text)
  : list text :=
  match lines with
  | [] => []
  | line :: rest =>
      if startswith line (txt "using ") then
        if bool_decide (line ∈ seen_usings) then filter_usings rest seen_usings
        else line :: filter_usings rest ({[line]} ∪ seen_usings)
      else line :: filter_usings rest seen_usings
  end.

Definition dedupe_usings (content : text) : text :=
  join [nl] (filter_usings (split nl content) ∅).

(** What [convert_file] computes in memory, past the skip test. *)
Definition convert_content (content : text) : result text :=
  content ← apply_rules using_rules content;
  let content := ensure_xunit_using content in
  content ← apply_rules conversion_rules content;
  content ← convert_remaining content;
  let content := drop_unneeded_async content in
  Ok (dedupe_usings content).

Definition convert_file (file_path : path) : M unit :=
  print (Converting file_path) ;;
  content ← read_file file_path ;
  if negb (has_tunit_syntax content) then
    print (SkippingNoTUnit file_path)
  else
    content ← lift (convert_content content) ;
    write_file file_path content ;;
    print (Converted file_path).

(** [globbed] is what [glob.glob(test_dir + "/*.cs")] returns. *)
Definition candidates (globbed : list path) : list path :=
  filter (fun f => basename f ∉ skip_files) globbed.

(** The body of the loop of [main]. *)
Definition convert_or_report (file_path : path) : M unit :=
  try_except (convert_file file_path)
    (fun e => print (ErrorConverting file_path e)).

Definition main (globbed : list path) : M unit :=
  let cs_files := candidates globbed in
  print (ConvertingFiles (length cs_files)) ;;
  for_each cs_files convert_or_report ;;
  print ConversionComplete ;;
  print NextSteps.

End Convert.

(** ** fix-remaining-xunit-issues.py *)
Module FixRemaining.

Definition rules : list rule :=
  [ Rule (py "Assert\.That\(([^)]+)\)\.IsEqualTo\(([^)]+)\)")
         (py "Assert.Equal(\2, \1)");
    Rule (py "Assert\.That\(([^)]+)\)\.IsNotEqualTo\(([^)]+)\)")
         (py "Assert.NotEqual(\2, \1)");
    Rule (py "Assert\.That\(([^)]+)\)\.IsNotNull\(\)") (py "Assert.NotNull(\1)");
    Rule (py "Assert\.That\(([^)]+)\)\.IsNull\(\)") (py "Assert.Null(\1)");
    Rule (py "Assert\.That\(([^)]+)\)\.IsTrue\(\)") (py "Assert.True(\1)");
    Rule (py "Assert\.That\(([^)]+)\)\.IsFalse\(\)") (py "Assert.False(\1)");
    Rule (py "Assert\.That\(([^)]+)\)\.Contains\(([^)]+)\)")
         (py "Assert.Contains(\2, \1)");
    Rule (py "Assert\.That\(([^)]+)\)\.IsEmpty\(\)") (py "Assert.Empty(\1)");
    Rule (py "Assert\.That\(([^)]+)\)\.IsNotEmpty\(\)") (py "Assert.NotEmpty(\1)");
    Rule (py "Assert\.Equal\(([^,]+), (`([^`]*)`)\)") (py "Assert.Equal(\2, \1)");
    Rule (py "Assert\.Equal\(([^,]+), (\'([^\']*)\'))") (py "Assert.Equal(\2, \1)");
    Rule (py "Assert\.Equal\(([^,]+), (\d+)\)") (py "Assert.Equal(\2, \1)");
    Rule (py "Assert\.Equal\(([^,]+), (JsonValueKind\.[A-Za-z]+)\)")
         (py "Assert.Equal(\2, \1)");
    Rule (py "Assert\.Equal\(([^,]+), (true|false)\)") (py "Assert.Equal(\2, \1)");
    Rule (py "Assert\.True\(([^.]+)\.Contains\(([^)]+)\)\)")
         (py "Assert.Contains(\2, \1)");
    Rule (py "Assert\.Equal\(0, ([^.]+)\.Count\)") (py "Assert.Empty(\1)");
    Rule (py "Assert\.True\(([^.]+)\.StartsWith\(([^)]+)\)\)")
         (py "Assert.StartsWith(\2, \1)");
    Rule (py "Assert\.True\(([^.]+)\.EndsWith\(([^)]+)\)\)")
         (py "Assert.EndsWith(\2, \1)");
    Rule (py "Assert\.Equal\(([^,]+)\.GetProperty\(`([^`]+)`\)\.GetString\(\), (`([^`]*)`)\)")
         (py "Assert.Equal(\3, \1.GetProperty(`\2`).GetString())");
    Rule (py "Assert\.Equal\(([^,]+)\.GetProperty\(`([^`]+)`\)\.GetInt32\(\), (\d+)\)")
         (py "Assert.Equal(\3, \1.GetProperty(`\2`).GetInt32())") ].

Definition fix_remaining_assertions (file_path : path) : M unit :=
  print (Fixing file_path) ;;
  content ← read_file file_path ;
  let original_content := content in
  content ← lift (apply_rules rules content) ;
  if bool_decide (content ≠ original_content) then
    write_file file_path content ;;
    print (FixedMark file_path)
  else
    print (NoChangesMark file_path).

Definition candidates (globbed : list path) : list path :=
  filter (fun f => basename f ∉ skip_files) globbed.

(** The body of the loop of [main]. *)
Definition fix_or_report (file_path : path) : M unit :=
  try_except (fix_remaining_assertions file_path)
    (fun e => print (ErrorFixingMark file_path e)).

Definition main (globbed : list path) : M unit :=
  let cs_files := candidates globbed in
  print (FixingFiles (length cs_files)) ;;
  for_each cs_files fix_or_report ;;
  print FixesComplete ;;
  print NextStep.

End FixRemaining.

(** ** fix-final-assertions.py *)
Module FixFinal.

Definition rules : list rule :=
  [ Rule (py "await Assert\.That\(([^)]+\.GetProperty\([^)]+\)\.GetInt32\(\))\)\.IsGreaterThan\((\d+)\);")
         (py "Assert.True(\1 > \2);");
    Rule (py "await Assert\.That\(([^)]+\.GetProperty\([^)]+\)\.GetInt32\(\))\)\.IsGreaterThanOrEqualTo\((\d+)\);")
         (py "Assert.True(\1 >= \2);");
    Rule (py "await Assert\.That\(([^)]+\.GetProperty\([^)]+\)\.GetString\(\))\)\.Contains\(([^)]+)\);")
         (py "Assert.Contains(\2, \1);");
    Rule (py "await Assert\.That\(([^)]+)\)\.Contains\(([^)]+)\);")
         (py "Assert.Contains(\2, \1);");
    Rule (py "Assert\.Equal\(([^,]+\.GetProperty\([^)]+\)\.GetString\(\)), (`([^`]*)`)\);")
         (py "Assert.Equal(\2, \1);");
    Rule (py "Assert\.Equal\(([^,]+\.GetProperty\([^)]+\)\.GetInt32\(\)), (\d+)\);")
         (py "Assert.Equal(\2, \1);");
    Rule (py "Assert\.Equal\(([^,]+\.GetProperty\([^)]+\)\.GetBoolean\(\)), (true|false)\);")
         (py "Assert.Equal(\2, \1);");
    Rule (py "Assert\.Equal\(([^,]+), (JsonValueKind\.[A-Za-z]+)\);")
         (py "Assert.Equal(\2, \1);");
    Rule (py "Assert\.True\(([^.]+)\.Contains\(([^)]+)\)\);")
         (py "Assert.Contains(\2, \1);");
    Rule (py "Assert\.Equal\(0, ([^.]+)\.Count\);") (py "Assert.Empty(\1);");
    Rule (py "Assert\.True\(([^.]+)\.StartsWith\(([^)]+)\)\);")
         (py "Assert.StartsWith(\2, \1);");
    Rule (py "Assert\.True\(([^.]+)\.EndsWith\(([^)]+)\)\);")
         (py "Assert.EndsWith(\2, \1);") ].

Definition fix_file (filename : path) : M unit :=
  content ← read_file filename ;
  let original := content in
  content ← lift (apply_rules rules content) ;
  if bool_decide (content ≠ original) then
    write_file filename content ;;
    print (Fixed filename)
  else
    print (NoChangesNeeded filename).

Definition files : list path :=
  map (fun name => txt "/home/henning/Workbench/MCP/MCP.Tests/" ++ txt name)
    [ "SimpleInMemoryTests.cs"; "Tests2.cs"; "Tests3.cs";
      "CodeSuggestionsErrorHandlingTests.cs"; "WorkingTests.cs";
      "RealCodeCoverageTests.cs"; "ProductionCodeTests.cs";
      "CodeSuggestionsIntegrationTests.cs"; "CodeSuggestionsTests.cs";
      "SimpleTests.cs"; "InMemoryTests.cs" ]%string.

(** The body of the loop at the end of the script. *)
Definition fix_or_report (file : path) : M unit :=
  try_except (fix_file file) (fun e => print (ErrorFixing file e)).

Definition main : M unit :=
  for_each files fix_or_report ;;
  print Done.

End FixFinal.

(** ** fix-xunit-warnings.py *)
Module FixWarnings.

Definition rules : list rule :=
  [ Rule (py "Assert\.True\(([^.]+)\.Contains\(([^)]+)\)\);")
         (py "Assert.Contains(\2, \1);");
    Rule (py "Assert\.Equal\(0, ([^.]+)\.Count\);") (py "Assert.Empty(\1);");
    Rule (py "Assert\.Equal\(0, ([^.]+)\.Length\);") (py "Assert.Empty(\1);");
    Rule (py "Assert\.Equal\(([^,]+\.GetProperty\([^)]+\)\.GetString\(\)), (`([^`]*)`)\);")
         (py "Assert.Equal(\2, \1);");
    Rule (py "Assert\.Equal\(([^,]+), (`([^`]*)`)\);") (py "Assert.Equal(\2, \1);") ].

Definition fix_xunit_warnings (file_path : path) : M bool :=
  content ← read_file file_path ;
  let original := content in
  content ← lift (apply_rules rules content) ;
  if bool_decide (content ≠ original) then
    write_file file_path content ;;
    print (Fixed file_path) ;;
    mret true
  else
    mret false.

(** [not any(skip in f for skip in skip_files)] *)
Definition candidates (globbed : list path) : list path :=
  filter (fun f => negb (existsb (fun skip => contains skip f) skip_files))
    globbed.

(** The body of the loop at the end of the script; the result is the
    new [fixed_count]. *)
Definition fix_or_report (file_path : path) (fixed_count : nat) : M nat :=
  try_except
    (fixed ← fix_xunit_warnings file_path ;
     mret (if fixed : bool then fixed_count + 1 else fixed_count))
    (fun e => print (ErrorFixing file_path e) ;; mret fixed_count).

Fixpoint fix_each (test_files : list path) (fixed_count : nat) : M nat :=
  match test_files with
  | [] => mret fixed_count
  | file_path :: rest =>
      fixed_count ← fix_or_report file_path fixed_count ;
      fix_each rest fixed_count
  end.

Definition main (globbed : list path) : M unit :=
  let test_files := candidates globbed in
  fixed_count ← fix_each test_files 0 ;
  print (FixedFiles fixed_count) ;;
  print Done.

End FixWarnings.

(** * Definitions used by the statements *)

(** A rule whose pattern and template are accepted by [re]. *)
Definition rule_ok (r : rule) : bool :=
  match compile (pattern r), parse_template (replacement r) with
  | Parsed _, Some _ => true
  | _, _ => false
  end.

(** One rule applied to the buffer, where [re.sub] returns. *)
Definition apply_rule (r : rule) (content : text) : text :=
  match re_sub (pattern r) (replacement r) content with
  | Ok content' => content'
  | Raise _ => content
  end.

(** The rules of a list applied in order, where [re.sub] returns. *)
Definition rewrite_with (rules : list rule) (content : text) : text :=
  fold_left (fun c r => apply_rule r c) rules content.

(** The regular expression of the pattern for what is left of
    [await Assert.That]. *)
Definition remaining_regex : regex :=
  Seq (Lit (txt "await Assert.That("))
    (Seq (Plus (Cls (Bracket true [(";"%char, ";"%char)]))) (Lit (txt ");"))).

(** The conversion of [convert_file] as a function on text. *)
Definition converted (content : text) : text :=
  let content := rewrite_with Convert.using_rules content in
  let content := Convert.ensure_xunit_using content in
  let content := rewrite_with Convert.conversion_rules content in
  let content :=
    sub_with remaining_regex
      (fun m _ => Convert.replace_multiline_assertions m) content in
  let content := Convert.drop_unneeded_async content in
  Convert.dedupe_usings content.

(** The pattern of fix-remaining-xunit-issues.py that [re] refuses: its
    last parenthesis has lost its backslash. *)
Definition unbalanced_pattern : text :=
  py "Assert\.Equal\(([^,]+), (\'([^\']*)\'))".

(** The texts written to [p] among the events [evs]. *)
Definition writes_to (p : path) (evs : list event) : list text :=
  omap (fun e => match e with
                 | Write q c => if decide (q = p) then Some c else None
                 | _ => None
                 end) evs.

Definition is_write (e : event) : bool :=
  match e with Write _ _ => true | _ => false end.

Definition is_read (e : event) : bool :=
  match e with Read _ => true | _ => false end.

(** The text of the file at [p], if there is one. *)
Definition content_at (w : world) (p : path) : option text :=
  data <$> disk w !! p.

(** The text that reading the file at [p] gives, if there is one. *)
Definition text_at (w : world) (p : path) : option text :=
  text_of <$> disk w !! p.

(** The write discipline of the specification for the function that
    processes one file: whatever the state, the function extends the
    trace, writes at most once, writes only the file it was given and only
    a text that differs from the text that reading the file gives, and
    leaves the disk as it was when it does not write. *)
Definition writes_only_changes {A} (step : path -> M A) : Prop :=
  forall p w,
    exists evs,
      trace (step p w).2 = trace w ++ evs
      /\ length (filter (fun e => is_write e = true) evs) <= 1
      /\ (forall q c, Write q c ∈ evs -> q = p /\ text_at w p <> Some c)
      /\ (Forall (fun e => is_write e = false) evs -> disk (step p w).2 = disk w).

(** The write discipline with the text to write made explicit.  [wanted]
    gives, for the text read, the text that the function is to write, if
    any.  The function extends the trace and writes at most once; it
    writes [c] to [q] exactly when [q] is the file it was given, the file
    is there, can be opened for reading, decodes, can be opened for
    writing, and [c] is the wanted text for its text; what it writes is
    what the file then holds; and when it does not write the disk is as it
    was. *)
Definition writes_exactly {A} (step : path -> M A)
    (wanted : text -> option text) : Prop :=
  forall p w,
    exists evs,
      trace (step p w).2 = trace w ++ evs
      /\ length (filter (fun e => is_write e = true) evs) <= 1
      /\ (forall q c,
            Write q c ∈ evs <->
            q = p
            /\ exists f, disk w !! p = Some f
                 /\ readable f = true /\ decodable f = true
                 /\ writable f = true
                 /\ wanted (text_of f) = Some c)
      /\ (forall c, Write p c ∈ evs -> content_at (step p w).2 p = Some c)
      /\ (Forall (fun e => is_write e = false) evs -> disk (step p w).2 = disk w).

(** The text that a fix script wants to write: the rewritten text, when
    it differs from the text read. *)
Definition changed_by (rules : list rule) (t : text) : option text :=
  if bool_decide (rewrite_with rules t ≠ t) then Some (rewrite_with rules t)
  else None.

(** The text that the converter wants to write: the conversion of a text
    with a trigger marker. *)
Definition conversion_of (t : text) : option text :=
  if Convert.has_tunit_syntax t then Some (converted t) else None.

(** A test file of the project and a disk that holds only it. *)
Definition sample_path : path :=
  txt "/home/henning/Workbench/MCP/MCP.Tests/SimpleTests.cs".

Definition disk_with (p : path) (content : text) : gmap path file :=
  {[ p := File content true true true ]}.

(** The error policy of a batch.  [step] processes one file, [body] is
    the body of the loop and [report] the message of its handler: the body
    never raises; when the step raises, the body prints the report for
    that file and returns, the disk is as it was before the step, and the
    step has read the file at most once and written nothing. *)
Definition reports_and_goes_on {A} (step : path -> M A)
    (body : path -> M unit) (report : path -> exn -> message) : Prop :=
  (forall p w, (body p w).1 = Ok tt)
  /\ (forall p w e w',
        step p w = (Raise e, w') ->
        body p w = (Ok tt, emit (Print (report p e)) w')
        /\ disk w' = disk w
        /\ exists evs,
             trace w' = trace w ++ evs
             /\ Forall (fun ev => is_write ev = false) evs
             /\ length (filter (fun ev => is_read ev = true) evs) <= 1).

(** The loop of fix-xunit-warnings.py threads [fixed_count]; this is its
    body as a step on the state alone. *)
Definition fix_warnings_body (file_path : path) : M unit :=
  fun w => (Ok tt, (FixWarnings.fix_or_report file_path 0 w).2).

(** In a loop, a file whose step raises is reported and the files after
    it are processed from the state the report leaves. *)
Definition skips_failed_file {A} (step : path -> M A)
    (body : path -> M unit) (report : path -> exn -> message) : Prop :=
  forall files1 p files2 w e w',
    step p (for_each files1 body w).2 = (Raise e, w') ->
    for_each (files1 ++ p :: files2) body w
    = for_each files2 body (emit (Print (report p e)) w').

(** A disk with a test file that cannot be opened and one that can. *)
Definition locked_path : path :=
  txt "/home/henning/Workbench/MCP/MCP.Tests/Tests2.cs".

Definition disk_with_locked : gmap path file :=
  <[ locked_path := File (txt "[Test]") false true false ]>
    (disk_with sample_path (txt "[Test]")).

(** A test file whose name ends like the name of an infrastructure file. *)
Definition my_test_setup : path :=
  txt "/home/henning/Workbench/MCP/MCP.Tests/MyTestSetup.cs".

(** A line that begins with [using ]. *)
Definition is_using (line : text) : bool := startswith line (txt "using ").

(** The deduplication in the words of its comment: a using line is
    dropped when the same line stands among the lines [before] it; every
    other line is kept. *)
Fixpoint keep_first_usings (before lines : list text) : list text :=
  match lines with
  | [] => []
  | line :: rest =>
      (if is_using line && bool_decide (line ∈ before) then [] else [line])
      ++ keep_first_usings (before ++ [line]) rest
  end.

(** ** The extent of a method, in the words of the specification *)

(** Opening minus closing braces over [lines]. *)
Definition balance (lines : list text) : Z :=
  foldr (fun line acc =>
           (Z.of_nat (count "{" line) - Z.of_nat (count "}" line) + acc)%Z)
    0%Z lines.

(** Some line of [lines] has an opening brace. *)
Definition has_open (lines : list text) : bool :=
  existsb (fun line => negb (count "{" line =? 0)) lines.

(** From line [i] to line [j] a brace has been opened and the braces
    balance. *)
Definition closed_at (lines : list text) (i j : nat) : bool :=
  (i <=? j) && (j <? length lines)
  && has_open (slice lines i (j + 1))
  && (balance (slice lines i (j + 1)) =? 0)%Z.

(** [method_end] is where the scan from the signature line [i] stops:
    the first line at which the balance is back to zero, and the
    signature line itself when there is no such line. *)
Definition is_method_end (lines : list text) (i method_end : nat) : Prop :=
  (closed_at lines i method_end = true
   /\ forall j, j < method_end -> closed_at lines i j = false)
  \/ (method_end = i /\ forall j, closed_at lines i j = false).

(** A line that the loop takes for a signature. *)
Definition is_async_signature (line : text) : bool :=
  contains (txt "public async Task") line && contains (txt "()") line.

(** The line that the loop leaves at index [i], from the lines it
    started with. *)
Definition without_async (lines : list text) (i : nat) (line : text) : text :=
  if is_async_signature line then
    let method_end :=
      Convert.find_method_end (drop i lines) i 0%Z false i in
    if contains (txt "await ") (join [nl] (slice lines i (method_end + 1)))
    then line
    else replace (txt "public async Task") (txt "public void") line
  else line.

(** ** One pass of a rule, in the words of the specification *)

(** [single_pass r repl adv s out]: [out] is [s] with the leftmost
    matches of [r] that do not overlap replaced, in one scan from the
    left.  At each position either no match starts there and the
    character is copied, or the match [m] found there is replaced by
    [repl m c] and the scan resumes behind it; the replacement text is not
    scanned.  [adv] says that the match before was empty, so that an empty
    match is refused here. *)
Inductive single_pass (r : regex) (repl : text -> caps -> text)
  : bool -> text -> text -> Prop :=
| pass_end adv :
    match_here r adv [] = None ->
    single_pass r repl adv [] []
| pass_copy adv a s out :
    match_here r adv (a :: s) = None ->
    single_pass r repl false s out ->
    single_pass r repl adv (a :: s) (a :: out)
| pass_replace adv m rest c out :
    match_here r adv (m ++ rest) = Some (rest, c) ->
    single_pass r repl (bool_decide (m = [])) rest out ->
    single_pass r repl adv (m ++ rest) (repl m c ++ out).

(** No pattern of [rules] that [re] accepts matches anywhere in [s]. *)
Definition no_rule_matches (rules : list rule) (s : text) : bool :=
  forallb (fun r => match compile (pattern r) with
                    | Parsed re => negb (search re s)
                    | Failed _ => true
                    end) rules.

(** What the converter leaves in a file that held [content]. *)
Definition converter_output (content : text) : text :=
  if Convert.has_tunit_syntax content then converted content else content.

(** Applying [f] to its own output changes nothing. *)
Definition idempotent (f : text -> text) : Prop :=
  forall content, f (f content) = f content.

(** ** The place of [using Xunit;], in the words of the claim *)

Definition xunit_line : text := txt "using Xunit;".

(** A using line other than those of xUnit. *)
Definition is_other_using (line : text) : bool :=
  startswith line (txt "using ")
  && negb (startswith line (txt "using Xunit")).

Definition is_namespace (line : text) : bool :=
  startswith line (txt "namespace ").

(** The lines before the first line that begins with [namespace ]. *)
Fixpoint header (lines : list text) : list text :=
  match lines with
  | [] => []
  | line :: rest => if is_namespace line then [] else line :: header rest
  end.

(** [k] is the index just behind the last other using line of [hdr],
    and 0 when [hdr] has none. *)
Definition behind_last_using (hdr : list text) (k : nat) : Prop :=
  (forall j line, hdr !! j = Some line -> k <= j -> is_other_using line = false)
  /\ (k = 0
      \/ exists line, hdr !! (k - 1) = Some line /\ is_other_using line = true).

(** The text has a line equal to [line]. *)
Definition has_line (line s : text) : Prop := line ∈ split nl s.

(** The claim on the output in the words of the specification: a file
    that the converter processes and whose text, the TUnit using lines
    removed, has a test attribute is written with the line
    [using Xunit;]. *)
Definition output_has_xunit_line : Prop :=
  forall content,
    Convert.has_tunit_syntax content = true ->
    contains (txt "[Test]") (rewrite_with Convert.using_rules content)
    || contains (txt "[Fact]") (rewrite_with Convert.using_rules content)
    = true ->
    has_line xunit_line (converted content).

(** A file with the text [using Xunit;] in a comment, and a file with
    using lines, a TUnit using line among them, and a namespace. *)
Definition commented_using : text :=
  txt "// using Xunit;" ++ [nl] ++ txt "[Test]".

Definition sample_test_file : text :=
  txt "using System;" ++ [nl] ++ txt "using TUnit.Core;" ++ [nl]
  ++ txt "using System.Linq;" ++ [nl] ++ [nl]
  ++ txt "namespace MCP.Tests;" ++ [nl] ++ [nl]
  ++ txt "using Late;" ++ [nl] ++ txt "[Test]" ++ [nl].

(** ** Patterns that are a sequence of literals and runs of a class *)

(** A segment of such a pattern: literal text, or [cl+], captured as
    group [n] when [g] is [Some n]. *)
Inductive seg :=
| SLit (l : text)
| SRun (g : option nat) (cl : cclass).

Definition seg_of (r : regex) : option seg :=
  match r with
  | Lit l => Some (SLit l)
  | Plus (Cls cl) => Some (SRun None cl)
  | Grp n (Plus (Cls cl)) => Some (SRun (Some n) cl)
  | _ => None
  end.

Fixpoint shape_of (r : regex) : option (list seg) :=
  match r with
  | Seq r1 r2 =>
      match seg_of r1, shape_of r2 with
      | Some x, Some sh => Some (x :: sh)
      | _, _ => None
      end
  | _ => (fun x => [x]) <$> seg_of r
  end.

(** The text [part] is matched by the segment. *)
Definition seg_match (x : seg) (part : text) : Prop :=
  match x with
  | SLit l => part = l
  | SRun _ cl => part <> [] /\ Forall (fun a => in_class cl a = true) part
  end.

(** The groups after the segments of [sh] have matched [parts]. *)
Fixpoint caps_of (sh : list seg) (parts : list text) (c : caps) : caps :=
  match sh, parts with
  | SRun (Some n) _ :: sh', part :: parts' => caps_of sh' parts' ((n, part) :: c)
  | _ :: sh', _ :: parts' => caps_of sh' parts' c
  | _, _ => c
  end.

(** The characters of the line [using Xunit;] and the line feed. *)
Definition line_chars : list ascii := nl :: xunit_line.

Definition starts_outside (l : text) : bool :=
  match l with
  | a :: _ => negb (bool_decide (a ∈ line_chars))
  | [] => false
  end.

(** Every literal is without line feed, and every run is followed by a
    literal that begins with a character foreign to the line. *)
Fixpoint shape_safe (sh : list seg) : bool :=
  match sh with
  | [] => true
  | SLit l :: rest =>
      negb (bool_decide (nl ∈ l)) && negb (bool_decide (l = []))
      && shape_safe rest
  | SRun _ _ :: rest =>
      match rest with
      | SLit l :: _ => starts_outside l
      | _ => false
      end && shape_safe rest
  end.

(** The class of the run leaves out a character of the line. *)
Definition run_excludes (cl : cclass) : bool :=
  existsb (fun a => negb (in_class cl a)) xunit_line.

(** The numbers of the capturing runs. *)
Definition group_numbers (sh : list seg) : list nat :=
  omap (fun x => match x with SRun (Some n) _ => Some n | _ => None end) sh.

(** The template refers to group [n]. *)
Definition has_ref (t : template) (n : nat) : bool :=
  existsb (fun i => match i with TRef m => m =? n | TLit _ => false end) t.

(** Every run either cannot hold the line or is a group that the
    template gives back. *)
Definition runs_given_back (t : template) (sh : list seg) : bool :=
  forallb (fun x => match x with
                    | SLit _ => true
                    | SRun g cl =>
                        run_excludes cl
                        || match g with
                           | Some n => has_ref t n
                           | None => false
                           end
                    end) sh.

(** The check of a rule of the converter: its pattern is a sequence of
    literals and runs that begins with a literal foreign to the line, and
    the line survives its matches. *)
Definition rule_keeps_line (r : rule) : bool :=
  match compile (pattern r), parse_template (replacement r) with
  | Parsed re, Some t =>
      match shape_of re with
      | Some (SLit l :: sh) =>
          starts_outside l && shape_safe (SLit l :: sh)
          && runs_given_back t (SLit l :: sh)
          && bool_decide (NoDup (group_numbers (SLit l :: sh)))
      | _ => false
      end
  | _, _ => false
  end.

(** The text has the line [using Xunit;]: at its very start when
    [at_start] allows it, or behind a line feed; and before its end or a
    line feed. *)
Definition line_inside (at_start : bool) (s : text) : Prop :=
  exists pre post,
    s = pre ++ xunit_line ++ post
    /\ (post = [] \/ exists post', post = nl :: post')
    /\ ((at_start = true /\ pre = []) \/ exists pre', pre = pre' ++ [nl]).

(** What a pattern and its replacement have to satisfy for the line to
    survive a pass. *)
Record keeps_line (r : regex) (repl : text -> caps -> text) : Prop := {
  no_empty_match : forall adv s c, match_here r adv s <> Some (s, c);
  no_start_in_line :
    forall adv a s res, a ∈ line_chars -> match_here r adv (a :: s) <> Some res;
  no_end_at_nl :
    forall adv m rest c, match_here r adv ((m ++ [nl]) ++ rest) <> Some (rest, c);
  line_given_back :
    forall adv pre x rest post c,
      match_here r adv ((pre ++ [nl] ++ x) ++ rest) = Some (rest, c) ->
      x <> [] ->
      x ++ rest = xunit_line ++ post ->
      (post = [] \/ exists post', post = nl :: post') ->
      exists u v, repl (pre ++ [nl] ++ x) c = u ++ [nl] ++ xunit_line ++ [nl] ++ v
}.

(** * Facts on the string methods *)

Lemma eqb_true a b : Ascii.eqb a b = true <-> a = b.
Proof. apply Ascii.eqb_eq. Qed.

Lemma eqb_false a b : Ascii.eqb a b = false <-> a <> b.
Proof. apply Ascii.eqb_neq. Qed.

Lemma strip_prefix_Some p s rest :
  strip_prefix p s = Some rest <-> s = p ++ rest.
Proof.
  revert s. induction p as [|a p IH]; intros s; cbn.
  - split; congruence.
  - destruct s as [|b s]; [split; discriminate|].
    destruct (Ascii.eqb_spec a b) as [->|Hne].
    + rewrite IH. split; congruence.
    + split; [discriminate|]. intros [=]. congruence.
Qed.

Lemma startswith_true s p : startswith s p = true <-> exists rest, s = p ++ rest.
Proof.
  unfold startswith. destruct (strip_prefix p s) as [rest|] eqn:E.
  - apply strip_prefix_Some in E. split; eauto.
  - split; [discriminate|]. intros [rest Hs].
    apply strip_prefix_Some in Hs. congruence.
Qed.

Lemma contains_true p s :
  contains p s = true <-> exists pre post, s = pre ++ p ++ post.
Proof.
  induction s as [|a s IH].
  - cbn [contains]. destruct (startswith [] p) eqn:E.
    + apply startswith_true in E as [rest E]. split; [|done]. intros _.
      exists [], rest. done.
    + split; [discriminate|]. intros (pre & post & Hs).
      destruct pre; [|discriminate]. cbn in Hs.
      assert (startswith [] p = true) by (apply startswith_true; eauto).
      congruence.
  - cbn [contains]. destruct (startswith (a :: s) p) eqn:E.
    + apply startswith_true in E as [rest E]. split; [|done]. intros _.
      exists [], rest. done.
    + rewrite IH. split.
      * intros (pre & post & ->). by exists (a :: pre), post.
      * intros (pre & post & Hs). destruct pre as [|b pre].
        -- assert (startswith (a :: s) p = true) by (apply startswith_true; eauto).
           congruence.
        -- injection Hs as -> ->. eauto.
Qed.

Lemma contains_false_app p s1 s2 :
  contains p (s1 ++ s2) = false -> contains p s1 = false /\ contains p s2 = false.
Proof.
  intros H. split.
  - destruct (contains p s1) eqn:E; [|done].
    apply contains_true in E as (pre & post & ->).
    assert (contains p ((pre ++ p ++ post) ++ s2) = true); [|congruence].
    apply contains_true. exists pre, (post ++ s2). by rewrite <- !app_assoc.
  - destruct (contains p s2) eqn:E; [|done].
    apply contains_true in E as (pre & post & ->).
    assert (contains p (s1 ++ pre ++ p ++ post) = true); [|congruence].
    apply contains_true. exists (s1 ++ pre), post. by rewrite <- !app_assoc.
Qed.

(** ** [split] and [join] *)

Lemma split_not_nil c s : split c s <> [].
Proof.
  destruct s as [|a s]; [done|]. cbn.
  destruct (Ascii.eqb a c); [done|]. by destruct (split c s).
Qed.

Lemma split_cons_ne c a s :
  a <> c ->
  split c (a :: s) = (a :: hd [] (split c s)) :: tl (split c s).
Proof.
  intros Hne. cbn. apply eqb_false in Hne. rewrite Hne.
  pose proof (split_not_nil c s). by destruct (split c s).
Qed.

Lemma split_no_sep c s l : l ∈ split c s -> c ∉ l.
Proof.
  revert l. induction s as [|a s IH]; intros l Hin.
  - cbn in Hin. apply list_elem_of_singleton in Hin as ->. apply not_elem_of_nil.
  - destruct (decide (a = c)) as [->|Hne].
    + cbn in Hin. rewrite Ascii.eqb_refl in Hin.
      apply elem_of_cons in Hin as [->|Hin]; [apply not_elem_of_nil|by apply IH].
    + rewrite split_cons_ne in Hin by done.
      pose proof (split_not_nil c s) as Hnn.
      destruct (split c s) as [|l0 ls] eqn:E; [done|]. cbn in Hin.
      apply elem_of_cons in Hin as [->|Hin].
      * intros Hc. apply elem_of_cons in Hc as [Hc|Hc]; [congruence|].
        revert Hc. apply IH. apply list_elem_of_here.
      * apply IH. by apply list_elem_of_further.
Qed.

Lemma split_app_no_sep c l s :
  c ∉ l ->
  split c (l ++ s) = (l ++ hd [] (split c s)) :: tl (split c s).
Proof.
  intros Hl. induction l as [|a l IH].
  - cbn. pose proof (split_not_nil c s). by destruct (split c s).
  - apply not_elem_of_cons in Hl as [Hne Hl]. cbn [app].
    rewrite split_cons_ne by done. rewrite IH by done. done.
Qed.

Lemma split_line c l : c ∉ l -> split c l = [l].
Proof.
  intros Hl. rewrite <- (app_nil_r l) at 1.
  rewrite split_app_no_sep by done. cbn. by rewrite app_nil_r.
Qed.

Lemma join_cons sep l ls :
  ls <> [] -> join sep (l :: ls) = l ++ sep ++ join sep ls.
Proof. by destruct ls. Qed.

(** Splitting what was joined gives the lines back. *)
Lemma split_join c ls :
  ls <> [] -> Forall (fun l => c ∉ l) ls -> split c (join [c] ls) = ls.
Proof.
  intros Hne Hall. induction Hall as [|l ls Hl Hall IH]; [done|].
  destruct ls as [|l' ls'].
  - cbn. by apply split_line.
  - rewrite join_cons by done. rewrite split_app_no_sep by done.
    cbn [app]. cbn [split]. rewrite Ascii.eqb_refl. cbn [hd tl].
    rewrite app_nil_r. f_equal. by apply IH.
Qed.

(** Joining what was split gives the text back. *)
Lemma join_split c s : join [c] (split c s) = s.
Proof.
  induction s as [|a s IH]; [done|].
  destruct (decide (a = c)) as [->|Hne].
  - cbn [split]. rewrite Ascii.eqb_refl.
    rewrite join_cons by apply split_not_nil. cbn. by rewrite IH.
  - rewrite split_cons_ne by done.
    pose proof (split_not_nil c s) as Hnn.
    destruct (split c s) as [|l ls]; [done|]. cbn [hd tl].
    destruct ls as [|l' ls'].
    + cbn in *. by rewrite IH.
    + rewrite <- IH. reflexivity.
Qed.

(** * The scripts, one file at a time *)

Lemma apply_rules_ok rules content :
  forallb rule_ok rules = true ->
  apply_rules rules content
  = Ok (fold_left (fun c r => apply_rule r c) rules content).
Proof.
  revert content. induction rules as [|r rules IH]; intros content Hok; [done|].
  simpl in Hok. apply andb_prop in Hok as [Hr Hrs].
  cbn [apply_rules fold_left]. unfold apply_rule at 2.
  unfold rule_ok in Hr. unfold re_sub.
  destruct (compile (pattern r)); [|done].
  destruct (parse_template (replacement r)); [|done].
  cbn. by apply IH.
Qed.

Lemma apply_rules_rewrite rules content :
  forallb rule_ok rules = true ->
  apply_rules rules content = Ok (rewrite_with rules content).
Proof. apply apply_rules_ok. Qed.

(** Every pattern and template of the converter, of fix-final-assertions.py
    and of fix-xunit-warnings.py is accepted by [re]. *)
Lemma using_rules_ok : forallb rule_ok Convert.using_rules = true.
Proof. vm_compute. reflexivity. Qed.

Lemma conversion_rules_ok : forallb rule_ok Convert.conversion_rules = true.
Proof. vm_compute. reflexivity. Qed.

Lemma fix_final_rules_ok : forallb rule_ok FixFinal.rules = true.
Proof. vm_compute. reflexivity. Qed.

Lemma fix_warnings_rules_ok : forallb rule_ok FixWarnings.rules = true.
Proof. vm_compute. reflexivity. Qed.

Lemma remaining_pattern_compiles :
  compile (py "await Assert\.That\([^;]+\);") = Parsed remaining_regex.
Proof. vm_compute. reflexivity. Qed.

Lemma result_bind_Ok {A B} (a : A) (f : A -> result B) : (Ok a ≫= f) = f a.
Proof. reflexivity. Qed.

Lemma result_bind_Raise {A B} (e : exn) (f : A -> result B) :
  (Raise e ≫= f) = Raise e.
Proof. reflexivity. Qed.

Lemma convert_content_converted content :
  Convert.convert_content content = Ok (converted content).
Proof.
  unfold Convert.convert_content, converted.
  rewrite (apply_rules_rewrite Convert.using_rules) by exact using_rules_ok.
  rewrite result_bind_Ok.
  rewrite (apply_rules_rewrite Convert.conversion_rules)
    by exact conversion_rules_ok.
  rewrite result_bind_Ok.
  unfold Convert.convert_remaining, re_sub_with.
  rewrite remaining_pattern_compiles.
  rewrite result_bind_Ok.
  reflexivity.
Qed.

(** Unfolding the monad of the scripts. *)
Ltac run_io :=
  repeat (cbn [mbind mret M_bind M_ret bind ret lift print read_file
               write_file try_except emit disk trace fst snd];
          unfold mbind, mret, M_bind, M_ret, bind, ret, lift, print,
                 read_file, write_file, try_except, emit;
          cbn [disk trace fst snd]).

Ltac io_done :=
  cbn [disk trace fst snd readable writable decodable data];
  rewrite <- ?app_assoc; reflexivity.

(** What [convert_file] does, by cases on the file. *)
Lemma convert_file_run p w :
  Convert.convert_file p w =
  match disk w !! p with
  | None => (Raise (FileNotFoundError p), emit (Print (Converting p)) w)
  | Some f =>
      if readable f then
        if decodable f then
          if Convert.has_tunit_syntax (text_of f) then
            if writable f then
              (Ok tt,
               World (<[p := File (converted (text_of f)) (readable f) true true]>
                        (disk w))
                 (trace w ++ [Print (Converting p); Read p;
                              Write p (converted (text_of f));
                              Print (Converted p)]))
            else
              (Raise (PermissionError p),
               World (disk w) (trace w ++ [Print (Converting p); Read p]))
          else
            (Ok tt,
             World (disk w)
               (trace w ++ [Print (Converting p); Read p;
                            Print (SkippingNoTUnit p)]))
        else
          (Raise (UnicodeDecodeError p),
           World (disk w) (trace w ++ [Print (Converting p); Read p]))
      else (Raise (PermissionError p), emit (Print (Converting p)) w)
  end.
Proof.
  unfold Convert.convert_file. run_io.
  destruct (disk w !! p) as [[d r dc wr]|] eqn:E; [|done].
  unfold text_of. cbn [readable writable decodable data].
  destruct r; [|done]. destruct dc; [|io_done].
  generalize (universal_newlines d) as t. intros t.
  destruct (Convert.has_tunit_syntax t); cbn [negb].
  - rewrite convert_content_converted. run_io. rewrite E.
    cbn [readable writable data].
    destruct wr; io_done.
  - io_done.
Qed.

Lemma apply_rules_app rules1 rules2 content :
  apply_rules (rules1 ++ rules2) content
  = (content' ← apply_rules rules1 content; apply_rules rules2 content').
Proof.
  revert content. induction rules1 as [|r rules1 IH]; intros content; [done|].
  cbn [app apply_rules].
  destruct (re_sub (pattern r) (replacement r) content).
  - rewrite !result_bind_Ok. apply IH.
  - by rewrite !result_bind_Raise.
Qed.

(** The rules of fix-remaining-xunit-issues.py before the one that [re]
    refuses, that one, and the rules after it. *)
Lemma fix_remaining_rules_split :
  FixRemaining.rules
  = take 10 FixRemaining.rules
    ++ Rule unbalanced_pattern (py "Assert.Equal(\2, \1)")
    :: drop 11 FixRemaining.rules.
Proof. vm_compute. reflexivity. Qed.

Lemma fix_remaining_first_rules_ok :
  forallb rule_ok (take 10 FixRemaining.rules) = true.
Proof. vm_compute. reflexivity. Qed.

Lemma unbalanced_pattern_refused : compile unbalanced_pattern = Failed Unbalanced.
Proof. vm_compute. reflexivity. Qed.

(** [re.sub] refuses the eleventh pattern of fix-remaining-xunit-issues.py
    whatever the buffer is. *)
Lemma fix_remaining_rules_raise content :
  apply_rules FixRemaining.rules content
  = Raise (ReError unbalanced_pattern Unbalanced).
Proof.
  rewrite fix_remaining_rules_split, apply_rules_app.
  rewrite apply_rules_rewrite by exact fix_remaining_first_rules_ok.
  rewrite result_bind_Ok.
  generalize (rewrite_with (take 10 FixRemaining.rules) content) as c.
  intros c. generalize (drop 11 FixRemaining.rules) as rest. intros rest.
  cbn [apply_rules pattern replacement]. unfold re_sub.
  rewrite unbalanced_pattern_refused. apply result_bind_Raise.
Qed.

(** What [fix_remaining_assertions] does: the rules raise for every file
    that can be read. *)
Lemma fix_remaining_assertions_run p w :
  FixRemaining.fix_remaining_assertions p w =
  match disk w !! p with
  | None => (Raise (FileNotFoundError p), emit (Print (Fixing p)) w)
  | Some f =>
      if readable f then
        (Raise (if decodable f then ReError unbalanced_pattern Unbalanced
                else UnicodeDecodeError p),
         World (disk w) (trace w ++ [Print (Fixing p); Read p]))
      else (Raise (PermissionError p), emit (Print (Fixing p)) w)
  end.
Proof.
  unfold FixRemaining.fix_remaining_assertions. run_io.
  destruct (disk w !! p) as [[d r dc wr]|] eqn:E; [|done].
  unfold text_of. cbn [readable writable decodable data].
  destruct r; [|done]. destruct dc; [|io_done].
  rewrite fix_remaining_rules_raise. io_done.
Qed.

(** What [fix_file] does, by cases on the file. *)
Lemma fix_file_run p w :
  FixFinal.fix_file p w =
  match disk w !! p with
  | None => (Raise (FileNotFoundError p), w)
  | Some f =>
      if readable f then
        if decodable f then
          if bool_decide (rewrite_with FixFinal.rules (text_of f) ≠ text_of f)
          then
            if writable f then
              (Ok tt,
               World (<[p := File (rewrite_with FixFinal.rules (text_of f))
                              (readable f) true true]> (disk w))
                 (trace w ++ [Read p;
                              Write p (rewrite_with FixFinal.rules (text_of f));
                              Print (Fixed p)]))
            else
              (Raise (PermissionError p), World (disk w) (trace w ++ [Read p]))
          else
            (Ok tt,
             World (disk w) (trace w ++ [Read p; Print (NoChangesNeeded p)]))
        else (Raise (UnicodeDecodeError p), World (disk w) (trace w ++ [Read p]))
      else (Raise (PermissionError p), w)
  end.
Proof.
  unfold FixFinal.fix_file. run_io.
  destruct (disk w !! p) as [[d r dc wr]|] eqn:E; [|done].
  unfold text_of. cbn [readable writable decodable data].
  destruct r; [|done]. destruct dc; [|io_done].
  generalize (universal_newlines d) as t. intros t.
  rewrite apply_rules_rewrite by exact fix_final_rules_ok.
  generalize (rewrite_with FixFinal.rules t) as c. intros c.
  case_bool_decide; run_io; rewrite ?E; cbn [readable writable data].
  - destruct wr; io_done.
  - io_done.
Qed.

(** What [fix_xunit_warnings] does, by cases on the file. *)
Lemma fix_xunit_warnings_run p w :
  FixWarnings.fix_xunit_warnings p w =
  match disk w !! p with
  | None => (Raise (FileNotFoundError p), w)
  | Some f =>
      if readable f then
        if decodable f then
          if bool_decide
               (rewrite_with FixWarnings.rules (text_of f) ≠ text_of f)
          then
            if writable f then
              (Ok true,
               World (<[p := File (rewrite_with FixWarnings.rules (text_of f))
                              (readable f) true true]> (disk w))
                 (trace w ++ [Read p;
                              Write p (rewrite_with FixWarnings.rules (text_of f));
                              Print (Fixed p)]))
            else
              (Raise (PermissionError p), World (disk w) (trace w ++ [Read p]))
          else (Ok false, World (disk w) (trace w ++ [Read p]))
        else (Raise (UnicodeDecodeError p), World (disk w) (trace w ++ [Read p]))
      else (Raise (PermissionError p), w)
  end.
Proof.
  unfold FixWarnings.fix_xunit_warnings. run_io.
  destruct (disk w !! p) as [[d r dc wr]|] eqn:E; [|done].
  unfold text_of. cbn [readable writable decodable data].
  destruct r; [|done]. destruct dc; [|io_done].
  generalize (universal_newlines d) as t. intros t.
  rewrite apply_rules_rewrite by exact fix_warnings_rules_ok.
  generalize (rewrite_with FixWarnings.rules t) as c. intros c.
  case_bool_decide; run_io; rewrite ?E; cbn [readable writable data].
  - destruct wr; io_done.
  - io_done.
Qed.

(** * The write discipline (C1) *)

Ltac split_events :=
  repeat match goal with
  | H : _ ∈ [] |- _ => by apply elem_of_nil in H
  | H : _ ∈ _ :: _ |- _ =>
      apply elem_of_cons in H as [H|H]; [try discriminate H|]
  end.

Lemma no_write_filter (evs : list event) :
  Forall (fun e => is_write e = false) evs ->
  filter (fun e => is_write e = true) evs = [].
Proof.
  induction 1 as [|e evs He Hall IH]; [done|].
  rewrite filter_cons_False by congruence. done.
Qed.

Lemma no_write_not_elem (evs : list event) q c :
  Forall (fun e => is_write e = false) evs -> Write q c ∉ evs.
Proof.
  intros Hall Hin. rewrite Forall_forall in Hall.
  specialize (Hall _ Hin). discriminate Hall.
Qed.

(** A step that writes nothing, in a state in which nothing is wanted;
    [o] is what the disk has at [p]. *)
Lemma writes_exactly_none {A} (res : result A) p w (o : option file) evs
    (wanted : text -> option text) :
  Forall (fun e => is_write e = false) evs ->
  (forall f, o = Some f -> readable f = true -> decodable f = true ->
             writable f = true -> wanted (text_of f) = None) ->
  exists evs',
    trace (res, World (disk w) (trace w ++ evs)).2 = trace w ++ evs'
    /\ length (filter (fun e => is_write e = true) evs') <= 1
    /\ (forall q c,
          Write q c ∈ evs' <->
          q = p
          /\ exists f, o = Some f
               /\ readable f = true /\ decodable f = true
               /\ writable f = true
               /\ wanted (text_of f) = Some c)
    /\ (forall c, Write p c ∈ evs' ->
                  content_at (res, World (disk w) (trace w ++ evs)).2 p = Some c)
    /\ (Forall (fun e => is_write e = false) evs' ->
        disk (res, World (disk w) (trace w ++ evs)).2 = disk w).
Proof.
  intros Hall Hnone. exists evs. unfold content_at. cbn [snd trace disk].
  split; [done|]. split; [rewrite no_write_filter by done; cbn; lia|].
  split; [|split; [|done]].
  - intros q c. split.
    + intros Hin. by apply no_write_not_elem in Hin.
    + intros (-> & f & Hf & Hr & Hd & Hw & Hwant).
      rewrite (Hnone f Hf Hr Hd Hw) in Hwant. discriminate.
  - intros c Hin. by apply no_write_not_elem in Hin.
Qed.

(** A step that writes the wanted text once. *)
Lemma writes_exactly_once {A} (res : result A) p w f c evs1 evs2
    (wanted : text -> option text) :
  readable f = true -> decodable f = true -> writable f = true ->
  wanted (text_of f) = Some c ->
  Forall (fun e => is_write e = false) evs1 ->
  Forall (fun e => is_write e = false) evs2 ->
  let w' := World (<[p := File c (readable f) true true]> (disk w))
              (trace w ++ evs1 ++ Write p c :: evs2) in
  exists evs',
    trace (res, w').2 = trace w ++ evs'
    /\ length (filter (fun e => is_write e = true) evs') <= 1
    /\ (forall q c',
          Write q c' ∈ evs' <->
          q = p
          /\ exists f', Some f = Some f'
               /\ readable f' = true /\ decodable f' = true
               /\ writable f' = true
               /\ wanted (text_of f') = Some c')
    /\ (forall c', Write p c' ∈ evs' -> content_at (res, w').2 p = Some c')
    /\ (Forall (fun e => is_write e = false) evs' -> disk (res, w').2 = disk w).
Proof.
  intros Hr Hd Hw Hwant H1 H2 w'. exists (evs1 ++ Write p c :: evs2).
  subst w'. unfold content_at. cbn [snd trace disk].
  assert (forall q c', Write q c' ∈ evs1 ++ Write p c :: evs2 -> q = p /\ c' = c)
    as Hin.
  { intros q c' Hin. apply elem_of_app in Hin as [Hin|Hin].
    - by apply no_write_not_elem in Hin.
    - apply elem_of_cons in Hin as [[= -> ->]|Hin]; [done|].
      by apply no_write_not_elem in Hin. }
  split; [done|]. split.
  { rewrite filter_app, filter_cons_True by done.
    rewrite !no_write_filter by done. cbn. lia. }
  split; [|split].
  - intros q c'. split.
    + intros Hq. apply Hin in Hq as [-> ->]. split; [done|]. by exists f.
    + intros (-> & f' & Hf' & _ & _ & _ & Hwant').
      injection Hf' as <-. rewrite Hwant in Hwant'.
      injection Hwant' as <-. apply elem_of_app. right. apply list_elem_of_here.
  - intros c' Hq. apply Hin in Hq as [_ ->].
    by rewrite lookup_insert_eq.
  - intros Hall. apply Forall_app in Hall as [_ Hall].
    apply Forall_cons in Hall as [Hx _]. discriminate Hx.
Qed.

(** Closes a case in which the file is missing, locked or does not
    decode. *)
Ltac not_wanted_case :=
  let f' := fresh "f" in
  let Hf' := fresh "Hf" in
  intros f' Hf' ? ? ?;
  first [ discriminate Hf'
        | injection Hf' as <-;
          cbn [readable writable decodable data] in *; try discriminate ].

(** A step that leaves the state as it is. *)
Lemma writes_exactly_untouched {A} (res : result A) p w (o : option file)
    (wanted : text -> option text) :
  (forall f, o = Some f -> readable f = true -> decodable f = true ->
             writable f = true -> wanted (text_of f) = None) ->
  exists evs',
    trace (res, w).2 = trace w ++ evs'
    /\ length (filter (fun e => is_write e = true) evs') <= 1
    /\ (forall q c,
          Write q c ∈ evs' <->
          q = p
          /\ exists f, o = Some f
               /\ readable f = true /\ decodable f = true
               /\ writable f = true
               /\ wanted (text_of f) = Some c)
    /\ (forall c, Write p c ∈ evs' -> content_at (res, w).2 p = Some c)
    /\ (Forall (fun e => is_write e = false) evs' -> disk (res, w).2 = disk w).
Proof.
  intros Hnone. exists []. cbn [snd]. split; [by rewrite app_nil_r|].
  split; [cbn; lia|]. split; [|split; [|done]].
  - intros q c. split.
    + intros Hin. by apply elem_of_nil in Hin.
    + intros (-> & f & Hf & Hr & Hd & Hw & Hwant).
      rewrite (Hnone f Hf Hr Hd Hw) in Hwant. discriminate.
  - intros c Hin. by apply elem_of_nil in Hin.
Qed.

Lemma fix_remaining_writes_exactly :
  writes_exactly FixRemaining.fix_remaining_assertions (fun _ => None).
Proof.
  intros p w. rewrite fix_remaining_assertions_run.
  destruct (disk w !! p) as [[d r dc wr]|] eqn:E; [destruct r|];
    cbn [readable writable decodable data emit];
    apply (writes_exactly_none _ p w _ _ (fun _ => None)); try done;
    repeat constructor.
Qed.

(** The cases of [fix_file] and [fix_xunit_warnings], which differ in
    their rules and in what they return and print. *)
Lemma fix_step_writes_exactly {A} (a b : A) rules p w evs :
  Forall (fun e => is_write e = false) evs ->
  exists evs',
    trace
      (match disk w !! p with
       | None => (Raise (FileNotFoundError p), w)
       | Some f =>
           if readable f then
             if decodable f then
               if bool_decide (rewrite_with rules (text_of f) ≠ text_of f)
               then
                 if writable f then
                   (Ok a,
                    World (<[p := File (rewrite_with rules (text_of f))
                                   (readable f) true true]> (disk w))
                      (trace w ++ [Read p;
                                   Write p (rewrite_with rules (text_of f));
                                   Print (Fixed p)]))
                 else
                   (Raise (PermissionError p),
                    World (disk w) (trace w ++ [Read p]))
               else (Ok b, World (disk w) (trace w ++ Read p :: evs))
             else
               (Raise (UnicodeDecodeError p),
                World (disk w) (trace w ++ [Read p]))
           else (Raise (PermissionError p), w)
       end).2 = trace w ++ evs'
    /\ length (filter (fun e => is_write e = true) evs') <= 1
    /\ (forall q c,
          Write q c ∈ evs' <->
          q = p
          /\ exists f, disk w !! p = Some f
               /\ readable f = true /\ decodable f = true
               /\ writable f = true
               /\ changed_by rules (text_of f) = Some c)
    /\ (forall c, Write p c ∈ evs' ->
          content_at
            (match disk w !! p with
             | None => (Raise (FileNotFoundError p), w)
             | Some f =>
                 if readable f then
                   if decodable f then
                     if bool_decide (rewrite_with rules (text_of f) ≠ text_of f)
                     then
                       if writable f then
                         (Ok a,
                          World (<[p := File (rewrite_with rules (text_of f))
                                         (readable f) true true]> (disk w))
                            (trace w ++ [Read p;
                                         Write p (rewrite_with rules (text_of f));
                                         Print (Fixed p)]))
                       else
                         (Raise (PermissionError p),
                          World (disk w) (trace w ++ [Read p]))
                     else (Ok b, World (disk w) (trace w ++ Read p :: evs))
                   else
                     (Raise (UnicodeDecodeError p),
                      World (disk w) (trace w ++ [Read p]))
                 else (Raise (PermissionError p), w)
             end).2 p = Some c)
    /\ (Forall (fun e => is_write e = false) evs' ->
        disk
          (match disk w !! p with
           | None => (Raise (FileNotFoundError p), w)
           | Some f =>
               if readable f then
                 if decodable f then
                   if bool_decide (rewrite_with rules (text_of f) ≠ text_of f)
                   then
                     if writable f then
                       (Ok a,
                        World (<[p := File (rewrite_with rules (text_of f))
                                       (readable f) true true]> (disk w))
                          (trace w ++ [Read p;
                                       Write p (rewrite_with rules (text_of f));
                                       Print (Fixed p)]))
                     else
                       (Raise (PermissionError p),
                        World (disk w) (trace w ++ [Read p]))
                   else (Ok b, World (disk w) (trace w ++ Read p :: evs))
                 else
                   (Raise (UnicodeDecodeError p),
                    World (disk w) (trace w ++ [Read p]))
               else (Raise (PermissionError p), w)
           end).2 = disk w).
Proof.
  intros Hevs.
  destruct (disk w !! p) as [[d r dc wr]|] eqn:E; [destruct r; [destruct dc|]|].
  2: apply (writes_exactly_none _ p w _ [Read p] (changed_by rules));
     [repeat constructor|not_wanted_case].
  2,3: apply (writes_exactly_untouched _ p w _ (changed_by rules));
       not_wanted_case.
  unfold text_of. cbn [readable writable decodable data].
  remember (universal_newlines d) as t eqn:Ht.
  case_bool_decide as Hne; [destruct wr|].
  - apply (writes_exactly_once _ p w (File d true true true)
             (rewrite_with rules t) [Read p] [Print (Fixed p)]
             (changed_by rules));
      try done; try (repeat constructor).
    unfold text_of, changed_by. cbn [data]. rewrite <- Ht.
    by rewrite bool_decide_eq_true_2.
  - apply (writes_exactly_none _ p w _ [Read p] (changed_by rules));
      [repeat constructor|not_wanted_case].
  - apply (writes_exactly_none _ p w _ (Read p :: evs) (changed_by rules));
      [by constructor|].
    not_wanted_case. unfold text_of, changed_by. cbn [data]. rewrite <- Ht.
    by rewrite bool_decide_eq_false_2 by (intros HH; by apply HH).
Qed.

Lemma fix_file_writes_exactly :
  writes_exactly FixFinal.fix_file (changed_by FixFinal.rules).
Proof.
  intros p w. rewrite fix_file_run.
  apply (fix_step_writes_exactly tt tt FixFinal.rules p w
           [Print (NoChangesNeeded p)]).
  repeat constructor.
Qed.

Lemma fix_xunit_warnings_writes_exactly :
  writes_exactly FixWarnings.fix_xunit_warnings (changed_by FixWarnings.rules).
Proof.
  intros p w. rewrite fix_xunit_warnings_run.
  apply (fix_step_writes_exactly true false FixWarnings.rules p w []).
  constructor.
Qed.

Lemma convert_file_writes_exactly :
  writes_exactly Convert.convert_file conversion_of.
Proof.
  intros p w. rewrite convert_file_run. unfold emit.
  destruct (disk w !! p) as [[d r dc wr]|] eqn:E; [destruct r; [destruct dc|]|];
    cbn [readable writable decodable data].
  2-4: apply (writes_exactly_none _ p w _ _ conversion_of);
       [repeat constructor|not_wanted_case].
  unfold text_of. cbn [data]. remember (universal_newlines d) as t eqn:Ht.
  destruct (Convert.has_tunit_syntax t) eqn:Hm; [destruct wr|].
  - apply (writes_exactly_once _ p w (File d true true true) (converted t)
             [Print (Converting p); Read p] [Print (Converted p)]
             conversion_of);
      try done; try (repeat constructor).
    unfold text_of, conversion_of. cbn [data]. by rewrite <- Ht, Hm.
  - apply (writes_exactly_none _ p w _ _ conversion_of);
      [repeat constructor|not_wanted_case].
  - apply (writes_exactly_none _ p w _ _ conversion_of);
      [repeat constructor|].
    not_wanted_case. unfold text_of, conversion_of. cbn [data].
    by rewrite <- Ht, Hm.
Qed.

(** A step that writes exactly a wanted text, where a wanted text always
    differs from the text read, writes only changes. *)
Lemma writes_exactly_only_changes {A} (step : path -> M A) wanted :
  (forall t c, wanted t = Some c -> c <> t) ->
  writes_exactly step wanted -> writes_only_changes step.
Proof.
  intros Hdiff Hstep p w.
  destruct (Hstep p w) as (evs & Htr & Hlen & Hw & _ & Hdisk).
  exists evs. split; [done|]. split; [done|]. split; [|done].
  intros q c Hin. apply Hw in Hin as (-> & f & Hf & _ & _ & _ & Hwant).
  split; [done|]. unfold text_at. rewrite Hf. cbn. intros [= Heq].
  by apply (Hdiff _ _ Hwant).
Qed.

Lemma changed_by_differs rules t c :
  changed_by rules t = Some c -> c <> t /\ c = rewrite_with rules t.
Proof.
  unfold changed_by. case_bool_decide as Hne; [|discriminate].
  by intros [= <-].
Qed.

(** C1, as the scripts have it.  Each of the four functions that process
    a file writes it at most once, and what it writes is what the file
    then holds; when it does not write, the disk is as it was.  A fix
    script writes exactly when the file can be read, decoded and written
    and its rules change the text read, and it writes the changed text
    (fix-remaining-xunit-issues.py never writes); so the three fix scripts
    write only a text that differs from the text read.  The converter
    writes exactly when the file can be read, decoded and written and the
    text read has a trigger marker, and it writes the conversion of that
    text, whether or not the conversion differs from it. *)
Theorem write_back_discipline :
  (writes_exactly FixRemaining.fix_remaining_assertions (fun _ => None)
   /\ writes_exactly FixFinal.fix_file (changed_by FixFinal.rules)
   /\ writes_exactly FixWarnings.fix_xunit_warnings
        (changed_by FixWarnings.rules)
   /\ forall rules t c,
        changed_by rules t = Some c -> c <> t /\ c = rewrite_with rules t)
  /\ (writes_only_changes FixRemaining.fix_remaining_assertions
      /\ writes_only_changes FixFinal.fix_file
      /\ writes_only_changes FixWarnings.fix_xunit_warnings)
  /\ writes_exactly Convert.convert_file conversion_of.
Proof.
  split; [|split].
  - split; [apply fix_remaining_writes_exactly|].
    split; [apply fix_file_writes_exactly|].
    split; [apply fix_xunit_warnings_writes_exactly|].
    apply changed_by_differs.
  - split; [|split].
    + apply (writes_exactly_only_changes _ (fun _ => None));
        [discriminate|apply fix_remaining_writes_exactly].
    + apply (writes_exactly_only_changes _ (changed_by FixFinal.rules));
        [|apply fix_file_writes_exactly].
      intros t c H. by apply changed_by_differs in H as [? _].
    + apply (writes_exactly_only_changes _ (changed_by FixWarnings.rules));
        [|apply fix_xunit_warnings_writes_exactly].
      intros t c H. by apply changed_by_differs in H as [? _].
  - apply convert_file_writes_exactly.
Qed.

Lemma convert_file_sample_trace :
  trace (Convert.convert_file sample_path
           (World (disk_with sample_path (txt "TUnit")) [])).2
  = [Print (Converting sample_path); Read sample_path;
     Write sample_path (txt "TUnit"); Print (Converted sample_path)].
Proof. vm_compute. reflexivity. Qed.

(** C1 as stated fails for the converter: a file that holds [TUnit] and
    nothing else has a trigger marker, its conversion is the same text,
    and [convert_file] writes it back all the same. *)
Lemma convert_file_writes_unchanged_text :
  ~ writes_only_changes Convert.convert_file.
Proof.
  intros H.
  destruct (H sample_path (World (disk_with sample_path (txt "TUnit")) []))
    as (evs & Htrace & _ & Hw & _).
  rewrite convert_file_sample_trace in Htrace. cbn [trace app] in Htrace.
  subst evs.
  destruct (Hw sample_path (txt "TUnit")) as [_ Hne].
  - apply list_elem_of_lookup. by exists 2.
  - apply Hne. vm_compute. reflexivity.
Qed.

(** A file with a marker that can be read but not written: the converter
    raises and writes nothing. *)
Example convert_file_read_only :
  let w := World {[ sample_path := File (txt "[Test]") true true false ]} [] in
  (Convert.convert_file sample_path w).1 = Raise (PermissionError sample_path)
  /\ trace (Convert.convert_file sample_path w).2
     = [Print (Converting sample_path); Read sample_path].
Proof. vm_compute. split; reflexivity. Qed.

(** * Errors do not stop the batch (C3) *)

Section Batch.
Context {A : Type} (step : path -> M A) (body : path -> M unit)
        (report : path -> exn -> message).
Hypothesis Hbody : reports_and_goes_on step body report.

Lemma for_each_ok files w : (for_each files body w).1 = Ok tt.
Proof.
  revert w. induction files as [|p files IH]; intros w; [done|].
  cbn [for_each]. run_io.
  destruct Hbody as [Hok _]. specialize (Hok p w).
  destruct (body p w) as [[[]|e] w']; [apply IH|discriminate Hok].
Qed.

Lemma for_each_cons p files w :
  for_each (p :: files) body w = for_each files body (body p w).2.
Proof.
  cbn [for_each]. run_io.
  destruct Hbody as [Hok _]. specialize (Hok p w).
  destruct (body p w) as [[[]|e] w']; [done|discriminate Hok].
Qed.

Lemma for_each_app files1 files2 w :
  for_each (files1 ++ files2) body w
  = for_each files2 body (for_each files1 body w).2.
Proof.
  revert w. induction files1 as [|p files1 IH]; intros w; [done|].
  cbn [app]. rewrite !for_each_cons. apply IH.
Qed.

(** A file whose step raises is reported, and the loop goes on with the
    files after it. *)
Lemma for_each_skips_failed files1 p files2 w e w' :
  step p (for_each files1 body w).2 = (Raise e, w') ->
  for_each (files1 ++ p :: files2) body w
  = for_each files2 body (emit (Print (report p e)) w').
Proof.
  intros Hstep. rewrite for_each_app, for_each_cons.
  destruct Hbody as [_ Hraise].
  destruct (Hraise _ _ _ _ Hstep) as [-> _]. done.
Qed.
End Batch.

(** Closes the case of a step that raised: the events it left. *)
Ltac raised_case :=
  match goal with
  | H : (_, _) = (_, _) |- _ => injection H as <- <-
  end;
  cbn [emit disk trace]; split; [done|];
  first [ exists []; split; [by rewrite app_nil_r|]
        | eexists; split; [reflexivity|] ];
  split; [repeat constructor|compute; lia].

Lemma convert_reports_and_goes_on :
  reports_and_goes_on Convert.convert_file Convert.convert_or_report
    ErrorConverting.
Proof.
  split.
  - intros p w. unfold Convert.convert_or_report. run_io.
    by destruct (Convert.convert_file p w) as [[[]|e] w'].
  - intros p w e w' Hstep. unfold Convert.convert_or_report. run_io.
    rewrite Hstep. split; [done|].
    rewrite convert_file_run in Hstep.
    destruct (disk w !! p) as [[d r dc wr]|]; [destruct r; [destruct dc|]|];
      unfold text_of in Hstep; cbn [readable writable decodable data] in Hstep.
    1: destruct (Convert.has_tunit_syntax _); [destruct wr|].
    all: try discriminate Hstep.
    all: raised_case.
Qed.

Lemma fix_remaining_reports_and_goes_on :
  reports_and_goes_on FixRemaining.fix_remaining_assertions
    FixRemaining.fix_or_report ErrorFixingMark.
Proof.
  split.
  - intros p w. unfold FixRemaining.fix_or_report. run_io.
    by destruct (FixRemaining.fix_remaining_assertions p w) as [[[]|e] w'].
  - intros p w e w' Hstep. unfold FixRemaining.fix_or_report. run_io.
    rewrite Hstep. split; [done|].
    rewrite fix_remaining_assertions_run in Hstep.
    destruct (disk w !! p) as [[d r dc wr]|]; [destruct r|];
      cbn [readable writable decodable data] in Hstep.
    all: raised_case.
Qed.

Lemma fix_final_reports_and_goes_on :
  reports_and_goes_on FixFinal.fix_file FixFinal.fix_or_report ErrorFixing.
Proof.
  split.
  - intros p w. unfold FixFinal.fix_or_report. run_io.
    by destruct (FixFinal.fix_file p w) as [[[]|e] w'].
  - intros p w e w' Hstep. unfold FixFinal.fix_or_report. run_io.
    rewrite Hstep. split; [done|].
    rewrite fix_file_run in Hstep.
    destruct (disk w !! p) as [[d r dc wr]|]; [destruct r; [destruct dc|]|];
      unfold text_of in Hstep; cbn [readable writable decodable data] in Hstep.
    1: revert Hstep; generalize (universal_newlines d) as t; intros t;
       generalize (rewrite_with FixFinal.rules t) as c;
       intros c Hstep; case_bool_decide; [destruct wr|].
    all: try discriminate Hstep.
    all: raised_case.
Qed.

Lemma fix_warnings_reports_and_goes_on :
  reports_and_goes_on FixWarnings.fix_xunit_warnings fix_warnings_body
    ErrorFixing.
Proof.
  split; [done|].
  intros p w e w' Hstep. unfold fix_warnings_body, FixWarnings.fix_or_report.
  run_io. rewrite Hstep. split; [done|].
  rewrite fix_xunit_warnings_run in Hstep.
  destruct (disk w !! p) as [[d r dc wr]|]; [destruct r; [destruct dc|]|];
    unfold text_of in Hstep; cbn [readable writable decodable data] in Hstep.
  1: revert Hstep; generalize (universal_newlines d) as t; intros t;
     generalize (rewrite_with FixWarnings.rules t) as c;
     intros c Hstep; case_bool_decide; [destruct wr|].
  all: try discriminate Hstep.
  all: raised_case.
Qed.

(** The counting loop of fix-xunit-warnings.py runs [fix_warnings_body]
    on the state. *)
Lemma fix_each_state files n w :
  exists m, FixWarnings.fix_each files n w
            = (Ok m, (for_each files fix_warnings_body w).2).
Proof.
  revert n w. induction files as [|p files IH]; intros n w; [by exists n|].
  rewrite (for_each_cons _ _ _ fix_warnings_reports_and_goes_on).
  cbn [FixWarnings.fix_each]. run_io.
  unfold fix_warnings_body, FixWarnings.fix_or_report. run_io.
  destruct (FixWarnings.fix_xunit_warnings p w) as [[b|e] w']; cbn [snd];
    apply IH.
Qed.

Lemma convert_main_ok globbed w : (Convert.main globbed w).1 = Ok tt.
Proof.
  unfold Convert.main. run_io.
  pose proof (for_each_ok _ _ _ convert_reports_and_goes_on
                (Convert.candidates globbed)
                (World (disk w)
                   (trace w ++ [Print (ConvertingFiles
                                         (length (Convert.candidates globbed)))])))
    as Hok.
  destruct (for_each _ _ _) as [[[]|e] w']; [done|discriminate Hok].
Qed.

Lemma fix_remaining_main_ok globbed w : (FixRemaining.main globbed w).1 = Ok tt.
Proof.
  unfold FixRemaining.main. run_io.
  pose proof (for_each_ok _ _ _ fix_remaining_reports_and_goes_on
                (FixRemaining.candidates globbed)
                (World (disk w)
                   (trace w ++ [Print (FixingFiles
                                         (length (FixRemaining.candidates globbed)))])))
    as Hok.
  destruct (for_each _ _ _) as [[[]|e] w']; [done|discriminate Hok].
Qed.

Lemma fix_final_main_ok w : (FixFinal.main w).1 = Ok tt.
Proof.
  unfold FixFinal.main. run_io.
  pose proof (for_each_ok _ _ _ fix_final_reports_and_goes_on FixFinal.files w)
    as Hok.
  destruct (for_each _ _ _) as [[[]|e] w']; [done|discriminate Hok].
Qed.

Lemma fix_warnings_main_ok globbed w : (FixWarnings.main globbed w).1 = Ok tt.
Proof.
  unfold FixWarnings.main. run_io.
  destruct (fix_each_state (FixWarnings.candidates globbed) 0 w) as [m ->].
  done.
Qed.


(** A run of the converter over a file that cannot be opened and a file
    that can: the first is reported, the second is converted. *)
Example convert_main_goes_on :
  let w := (Convert.main [locked_path; sample_path]
              (World disk_with_locked [])).2 in
  trace w
  = [ Print (ConvertingFiles 2);
      Print (Converting locked_path);
      Print (ErrorConverting locked_path (PermissionError locked_path));
      Print (Converting sample_path);
      Read sample_path;
      Write sample_path (txt "using Xunit;" ++ [nl] ++ txt "[Fact]");
      Print (Converted sample_path);
      Print ConversionComplete;
      Print NextSteps ]
  /\ content_at w locked_path = Some (txt "[Test]").
Proof. vm_compute. split; reflexivity. Qed.

(** * The candidate files (C2) *)

(** In convert-tunit-to-xunit.py and fix-remaining-xunit-issues.py the
    candidates are the globbed files whose base name is not excluded. *)
Lemma convert_candidates_exact globbed p :
  p ∈ Convert.candidates globbed <-> p ∈ globbed /\ basename p ∉ skip_files.
Proof. unfold Convert.candidates. rewrite list_elem_of_filter. tauto. Qed.

Lemma fix_remaining_candidates_exact globbed p :
  p ∈ FixRemaining.candidates globbed
  <-> p ∈ globbed /\ basename p ∉ skip_files.
Proof. unfold FixRemaining.candidates. rewrite list_elem_of_filter. tauto. Qed.

(** In fix-xunit-warnings.py the candidates are the globbed files whose
    path has no excluded name inside it. *)
Lemma fix_warnings_candidates_exact globbed p :
  p ∈ FixWarnings.candidates globbed
  <-> p ∈ globbed /\ forall skip, skip ∈ skip_files -> contains skip p = false.
Proof.
  unfold FixWarnings.candidates. rewrite list_elem_of_filter.
  split; intros [H1 H2]; split; try done.
  - intros skip Hin. apply negb_prop_elim in H1.
    destruct (contains skip p) eqn:E; [|done].
    exfalso. apply H1. apply Is_true_true. apply existsb_exists.
    exists skip. split; [by apply list_elem_of_In|done].
  - apply negb_prop_intro. intros Hex. apply Is_true_true in Hex.
    apply existsb_exists in Hex as (skip & Hin & Hc).
    apply list_elem_of_In in Hin. rewrite (H2 skip Hin) in Hc. discriminate.
Qed.

(** C2 at [MyTestSetup.cs]: the base name is not excluded, the two
    scripts that compare base names keep the file, and
    fix-xunit-warnings.py drops it because [TestSetup.cs] occurs in its
    path. *)
Theorem fix_warnings_drops_unexcluded_file :
  basename my_test_setup = txt "MyTestSetup.cs"
  /\ (basename my_test_setup ∉ skip_files)
  /\ Convert.candidates [my_test_setup] = [my_test_setup]
  /\ FixRemaining.candidates [my_test_setup] = [my_test_setup]
  /\ FixWarnings.candidates [my_test_setup] = [].
Proof.
  split; [vm_compute; reflexivity|].
  split; [|split; [|split]]; try (vm_compute; reflexivity).
  intros Hin. vm_compute in Hin.
  repeat (apply elem_of_cons in Hin as [Hin|Hin]; [discriminate Hin|]).
  by apply elem_of_nil in Hin.
Qed.

(** * Files without a trigger marker (C5) *)

(** Reading in text mode neither makes nor hides a marker: a marker has
    no carriage return and no line feed in it. *)
Lemma startswith_universal_newlines (m s : text) :
  cr ∉ m -> nl ∉ m ->
  startswith (universal_newlines s) m = true -> startswith s m = true.
Proof.
  intros Hcr Hnl. revert s. induction m as [|b m IH]; intros s H; [done|].
  apply not_elem_of_cons in Hcr as [Hcr Hcr'].
  apply not_elem_of_cons in Hnl as [Hnl Hnl'].
  apply startswith_true in H as [rest H].
  destruct s as [|a s]; [discriminate|]. cbn [universal_newlines] in H.
  destruct (Ascii.eqb_spec a cr) as [->|Ha].
  - exfalso. destruct s as [|a' s]; [by injection H as <-|].
    destruct (Ascii.eqb a' nl); by injection H as <-.
  - injection H as <- H. apply startswith_true.
    assert (startswith s m = true) as Hs.
    { apply IH; try done. apply startswith_true. eauto. }
    apply startswith_true in Hs as [rest' ->]. by exists rest'.
Qed.

Lemma contains_cons_intro (m s : text) a :
  contains m s = true -> contains m (a :: s) = true.
Proof.
  intros H. apply contains_true in H as (pre & post & ->).
  apply contains_true. by exists (a :: pre), post.
Qed.

Lemma contains_universal_newlines_le (m : text) n (s : text) :
  length s <= n ->
  m <> [] -> cr ∉ m -> nl ∉ m ->
  contains m (universal_newlines s) = true -> contains m s = true.
Proof.
  intros Hn Hm Hcr Hnl. revert s Hn. induction n as [|n IH]; intros s Hn H.
  - destruct s; [|cbn in Hn; lia]. done.
  - destruct s as [|a s]; [done|]. cbn [length] in Hn.
    cbn [universal_newlines] in H.
    destruct m as [|b m]; [done|].
    apply not_elem_of_cons in Hnl as [Hb Hnl'].
    destruct (Ascii.eqb_spec a cr) as [->|Ha].
    + assert (forall t, contains (b :: m) (nl :: t) = true ->
                        contains (b :: m) t = true) as Hskip.
      { intros t Ht. cbn [contains] in Ht.
        destruct (startswith (nl :: t) (b :: m)) eqn:E; [|done].
        apply startswith_true in E as [rest E]. by injection E as <-. }
      apply contains_cons_intro.
      destruct s as [|a' s]; [by apply Hskip in H|].
      destruct (Ascii.eqb a' nl).
      * apply Hskip in H. apply contains_cons_intro. apply IH; [|done].
        cbn [length] in Hn. lia.
      * apply Hskip in H. apply IH; [lia|done].
    + cbn [contains] in H.
      destruct (startswith (a :: universal_newlines s) (b :: m)) eqn:E.
      * assert (startswith (a :: s) (b :: m) = true) as Hs.
        { apply (startswith_universal_newlines (b :: m) (a :: s));
            [done|by apply not_elem_of_cons|].
          cbn [universal_newlines]. apply Ascii.eqb_neq in Ha. by rewrite Ha. }
        cbn [contains]. by rewrite Hs.
      * apply contains_cons_intro. apply IH; [lia|done].
Qed.

Lemma has_tunit_syntax_universal_newlines s :
  Convert.has_tunit_syntax s = false ->
  Convert.has_tunit_syntax (universal_newlines s) = false.
Proof.
  unfold Convert.has_tunit_syntax, Convert.triggers. cbn [existsb].
  intros H. apply orb_false_elim in H as [H1 H].
  apply orb_false_elim in H as [H2 H]. apply orb_false_elim in H as [H3 _].
  assert (forall m, m <> [] -> cr ∉ m -> nl ∉ m -> contains m s = false ->
                    contains m (universal_newlines s) = false) as Hm.
  { intros m Hne Hcr Hnl Hc.
    destruct (contains m (universal_newlines s)) eqn:E; [|done].
    apply (contains_universal_newlines_le m (length s)) in E; try done.
    congruence. }
  assert (forall m : text, bool_decide (cr ∉ m) = true -> cr ∉ m) as Hd1.
  { intros m. apply bool_decide_eq_true_1. }
  assert (forall m : text, bool_decide (nl ∉ m) = true -> nl ∉ m) as Hd2.
  { intros m. apply bool_decide_eq_true_1. }
  rewrite !Hm; try done; (apply Hd1 || apply Hd2); vm_compute; reflexivity.
Qed.

Lemma writes_to_app p evs1 evs2 :
  writes_to p (evs1 ++ evs2) = writes_to p evs1 ++ writes_to p evs2.
Proof. unfold writes_to. apply omap_app. Qed.

(** One round of the loop of the converter, seen from a file without
    marker: the file stays as it is, nothing is written to it, and when
    the round is its own it is reported as skipped. *)
Lemma convert_or_report_keeps_unmarked q w p f :
  disk w !! p = Some f ->
  readable f = true ->
  decodable f = true ->
  Convert.has_tunit_syntax (data f) = false ->
  let w' := (Convert.convert_or_report q w).2 in
  disk w' !! p = Some f
  /\ exists evs,
       trace w' = trace w ++ evs
       /\ writes_to p evs = []
       /\ (q = p -> Print (SkippingNoTUnit p) ∈ evs).
Proof.
  intros Hp Hr Hd Ht. apply has_tunit_syntax_universal_newlines in Ht.
  fold (text_of f) in Ht. unfold Convert.convert_or_report. run_io.
  rewrite convert_file_run.
  destruct (decide (q = p)) as [->|Hne].
  - rewrite Hp, Hr, Hd, Ht. cbn [snd disk trace]. split; [done|].
    eexists. split; [reflexivity|]. split; [done|].
    intros _. apply list_elem_of_lookup. by exists 2.
  - assert (Hw : forall (c : text), writes_to p [Write q c] = []).
    { intros c. cbn. by rewrite decide_False. }
    destruct (disk w !! q) as [[d r dc wr]|] eqn:E;
      [destruct r; [destruct dc|]|];
      unfold text_of; cbn [readable writable decodable data].
    1: destruct (Convert.has_tunit_syntax (universal_newlines d));
       [destruct wr|].
    all: cbn [snd disk trace emit]; rewrite ?lookup_insert_ne by done.
    all: split; [done|]; rewrite <- ?app_assoc; eexists.
    all: split; [reflexivity|]; split; [|done].
    all: cbn; by rewrite ?decide_False.
Qed.

Lemma for_each_convert_keeps_unmarked files w p f :
  disk w !! p = Some f ->
  readable f = true ->
  decodable f = true ->
  Convert.has_tunit_syntax (data f) = false ->
  let w' := (for_each files Convert.convert_or_report w).2 in
  disk w' !! p = Some f
  /\ exists evs,
       trace w' = trace w ++ evs
       /\ writes_to p evs = []
       /\ (p ∈ files -> Print (SkippingNoTUnit p) ∈ evs).
Proof.
  intros Hp Hr Hd Ht. revert w Hp.
  induction files as [|q files IH]; intros w Hp.
  - cbn. split; [done|]. exists []. rewrite app_nil_r.
    split; [done|]. split; [done|]. intros Hin. by apply elem_of_nil in Hin.
  - rewrite (for_each_cons _ _ _ convert_reports_and_goes_on).
    destruct (convert_or_report_keeps_unmarked q w p f Hp Hr Hd Ht)
      as (Hp1 & evs1 & Htr1 & Hw1 & Hs1).
    destruct (IH _ Hp1) as (Hp2 & evs2 & Htr2 & Hw2 & Hs2).
    cbn zeta. split; [done|]. exists (evs1 ++ evs2).
    rewrite Htr2, Htr1, <- app_assoc. split; [done|].
    rewrite writes_to_app, Hw1, Hw2. split; [done|].
    intros Hin. apply elem_of_app.
    apply elem_of_cons in Hin as [->|Hin]; [left; by apply Hs1|right; by apply Hs2].
Qed.

(** C5: a candidate file that can be read and decoded and has none of
    the markers [[Test]], [await Assert.That] and [TUnit] is, after the
    whole run of the converter, the file it was; the run writes nothing to
    it and prints that it was skipped. *)
Theorem unmarked_file_is_skipped globbed w p f :
  p ∈ Convert.candidates globbed ->
  disk w !! p = Some f ->
  readable f = true ->
  decodable f = true ->
  Convert.has_tunit_syntax (data f) = false ->
  let w' := (Convert.main globbed w).2 in
  disk w' !! p = Some f
  /\ exists evs,
       trace w' = trace w ++ evs
       /\ writes_to p evs = []
       /\ Print (SkippingNoTUnit p) ∈ evs.
Proof.
  intros Hin Hp Hr Hd Ht. unfold Convert.main. run_io.
  set (w0 := World (disk w) (trace w ++ [_])).
  destruct (for_each_convert_keeps_unmarked (Convert.candidates globbed) w0 p f
              Hp Hr Hd Ht) as (Hp1 & evs & Htr & Hw & Hs).
  pose proof (for_each_ok _ _ _ convert_reports_and_goes_on
                (Convert.candidates globbed) w0) as Hok.
  destruct (for_each _ _ w0) as [[[]|e] w1]; [|discriminate Hok].
  cbn [snd disk trace] in *. split; [done|].
  subst w0. cbn [trace] in Htr.
  exists ([Print (ConvertingFiles (length (Convert.candidates globbed)))]
          ++ evs ++ [Print ConversionComplete; Print NextSteps]).
  split; [rewrite Htr, <- !app_assoc; reflexivity|].
  split; [rewrite !writes_to_app, Hw; reflexivity|].
  apply elem_of_app. right. apply elem_of_app. left. by apply Hs.
Qed.

(** A run on a disk with one file, which has no marker. *)
Lemma unmarked_file_is_skipped_witness :
  let w := World (disk_with sample_path (txt "class A {}")) [] in
  let w' := (Convert.main [sample_path] w).2 in
  disk w' !! sample_path = Some (File (txt "class A {}") true true true)
  /\ exists evs,
       trace w' = trace w ++ evs
       /\ writes_to sample_path evs = []
       /\ Print (SkippingNoTUnit sample_path) ∈ evs.
Proof.
  apply (unmarked_file_is_skipped [sample_path]
           (World (disk_with sample_path (txt "class A {}")) [])
           sample_path (File (txt "class A {}") true true true)).
  - vm_compute. apply list_elem_of_here.
  - vm_compute. reflexivity.
  - reflexivity.
  - reflexivity.
  - vm_compute. reflexivity.
Defined.

(** * The output is a function of the content (C8) *)

Lemma convert_file_content p w f :
  disk w !! p = Some f ->
  readable f = true -> decodable f = true -> writable f = true ->
  content_at (Convert.convert_file p w).2 p
  = Some (if Convert.has_tunit_syntax (text_of f) then converted (text_of f)
          else data f).
Proof.
  intros Hp Hr Hd Hw. rewrite convert_file_run, Hp, Hr, Hd, Hw.
  unfold content_at.
  destruct (Convert.has_tunit_syntax (text_of f)); cbn [snd disk].
  - by rewrite lookup_insert_eq.
  - by rewrite Hp.
Qed.

Lemma fix_file_changed p w f :
  disk w !! p = Some f ->
  readable f = true -> decodable f = true -> writable f = true ->
  rewrite_with FixFinal.rules (text_of f) <> text_of f ->
  content_at (FixFinal.fix_file p w).2 p
  = Some (rewrite_with FixFinal.rules (text_of f)).
Proof.
  intros Hp Hr Hd Hw Hne. rewrite fix_file_run, Hp, Hr, Hd, Hw.
  revert Hne. generalize (rewrite_with FixFinal.rules (text_of f)) as c.
  intros c Hne. rewrite bool_decide_eq_true_2 by done.
  unfold content_at. cbn [snd disk]. by rewrite lookup_insert_eq.
Qed.

Lemma fix_file_unchanged p w f :
  disk w !! p = Some f ->
  readable f = true -> decodable f = true ->
  rewrite_with FixFinal.rules (text_of f) = text_of f ->
  disk (FixFinal.fix_file p w).2 = disk w.
Proof.
  intros Hp Hr Hd Heq. rewrite fix_file_run, Hp, Hr, Hd.
  revert Heq. generalize (rewrite_with FixFinal.rules (text_of f)) as c.
  intros c Heq. rewrite bool_decide_eq_false_2; [done|].
  intros Hne. by apply Hne.
Qed.

(** The text that [fix_file] leaves in a file that it can read, decode
    and write: read again, it is the rewritten text. *)
Lemma fix_file_text p w f :
  disk w !! p = Some f ->
  readable f = true -> decodable f = true -> writable f = true ->
  content_at (FixFinal.fix_file p w).2 p
  = Some (if bool_decide (rewrite_with FixFinal.rules (text_of f) ≠ text_of f)
          then rewrite_with FixFinal.rules (text_of f) else data f).
Proof.
  intros Hp Hr Hd Hw. case_bool_decide as Hne.
  - by apply fix_file_changed.
  - unfold content_at. rewrite (fix_file_unchanged p w f); try done.
    by rewrite Hp.
Qed.

Lemma fix_xunit_warnings_text p w f :
  disk w !! p = Some f ->
  readable f = true -> decodable f = true -> writable f = true ->
  content_at (FixWarnings.fix_xunit_warnings p w).2 p
  = Some (if bool_decide
               (rewrite_with FixWarnings.rules (text_of f) ≠ text_of f)
          then rewrite_with FixWarnings.rules (text_of f) else data f).
Proof.
  intros Hp Hr Hd Hw. rewrite fix_xunit_warnings_run, Hp, Hr, Hd, Hw.
  generalize (rewrite_with FixWarnings.rules (text_of f)) as c. intros c.
  unfold content_at. case_bool_decide as Hne; cbn [snd disk].
  - by rewrite lookup_insert_eq.
  - by rewrite Hp.
Qed.

(** C8: take two runs on files that can be read, decoded and written and
    hold the same characters, in any two states of the disk and the
    console and under any two paths.  Both runs leave the same characters
    in their file: for [convert_file] the rules of the converter applied
    in their order to the text read when it has a trigger marker, for
    [fix_file] and [fix_xunit_warnings] their rules applied in their order
    to the text read when they change it, and the characters the file had
    otherwise. *)
Theorem same_content_same_output w1 w2 p1 p2 f1 f2 :
  disk w1 !! p1 = Some f1 -> disk w2 !! p2 = Some f2 ->
  data f1 = data f2 ->
  readable f1 = true -> readable f2 = true ->
  decodable f1 = true -> decodable f2 = true ->
  writable f1 = true -> writable f2 = true ->
  (content_at (Convert.convert_file p1 w1).2 p1
   = content_at (Convert.convert_file p2 w2).2 p2
   /\ content_at (Convert.convert_file p1 w1).2 p1
      = Some (if Convert.has_tunit_syntax (text_of f1)
              then converted (text_of f1) else data f1))
  /\ (content_at (FixFinal.fix_file p1 w1).2 p1
      = content_at (FixFinal.fix_file p2 w2).2 p2
      /\ content_at (FixFinal.fix_file p1 w1).2 p1
         = Some (if bool_decide
                      (rewrite_with FixFinal.rules (text_of f1) ≠ text_of f1)
                 then rewrite_with FixFinal.rules (text_of f1) else data f1))
  /\ (content_at (FixWarnings.fix_xunit_warnings p1 w1).2 p1
      = content_at (FixWarnings.fix_xunit_warnings p2 w2).2 p2
      /\ content_at (FixWarnings.fix_xunit_warnings p1 w1).2 p1
         = Some (if bool_decide
                      (rewrite_with FixWarnings.rules (text_of f1) ≠ text_of f1)
                 then rewrite_with FixWarnings.rules (text_of f1)
                 else data f1)).
Proof.
  intros H1 H2 Hdata Hr1 Hr2 Hd1 Hd2 Hw1 Hw2.
  assert (text_of f1 = text_of f2) as Ht by (unfold text_of; by rewrite Hdata).
  rewrite (convert_file_content p1 w1 f1), (convert_file_content p2 w2 f2),
    (fix_file_text p1 w1 f1), (fix_file_text p2 w2 f2),
    (fix_xunit_warnings_text p1 w1 f1), (fix_xunit_warnings_text p2 w2 f2)
    by done.
  rewrite <- Ht, <- Hdata. done.
Qed.

(** Two disks, two paths, the same test. *)
Lemma same_content_same_output_witness :
  let body := txt "[Test] Assert.Equal(0, xs.Count);" in
  let w1 := World (disk_with sample_path body) [] in
  let w2 := World (<[ locked_path := File body true true true ]>
                     (disk_with sample_path (txt "other"))) [Print Done] in
  content_at (Convert.convert_file sample_path w1).2 sample_path
  = content_at (Convert.convert_file locked_path w2).2 locked_path
  /\ content_at (FixFinal.fix_file sample_path w1).2 sample_path
     = content_at (FixFinal.fix_file locked_path w2).2 locked_path.
Proof.
  intros body w1 w2.
  destruct (same_content_same_output w1 w2 sample_path locked_path
              (File body true true true) (File body true true true))
    as ((Hc & _) & (Hf & _) & _);
    try (vm_compute; reflexivity).
  split; [exact Hc|exact Hf].
Defined.

Example fix_final_rewrites_count :
  rewrite_with FixFinal.rules (txt "[Test] Assert.Equal(0, xs.Count);")
  = txt "[Test] Assert.Empty(xs);".
Proof. vm_compute. reflexivity. Qed.

(** A file with carriage returns: the text read has line feeds only, and
    so has the text written. *)
Example convert_file_line_ends :
  content_at
    (Convert.convert_file sample_path
       (World (disk_with sample_path (txt "[Test]" ++ [cr; nl] ++ txt "x")) [])).2
    sample_path
  = Some (txt "using Xunit;" ++ [nl] ++ txt "[Fact]" ++ [nl] ++ txt "x").
Proof. vm_compute. reflexivity. Qed.

(** * Duplicate using lines (C9) *)

(** The loop with its set of seen using lines computes what the comment
    says, when the set holds the using lines met before. *)
Lemma filter_usings_keep_first (before lines : list text) (seen : gset text) :
  (forall l, l ∈ seen <-> is_using l = true /\ l ∈ before) ->
  Convert.filter_usings lines seen = keep_first_usings before lines.
Proof.
  revert before seen. induction lines as [|line rest IH]; intros before seen Hseen;
    [done|].
  cbn [Convert.filter_usings keep_first_usings]. fold (is_using line).
  destruct (is_using line) eqn:Hu; cbn [andb].
  - case_bool_decide as Hin.
    + rewrite bool_decide_eq_true_2 by (by apply Hseen).
      cbn [app]. apply IH. intros l. rewrite Hseen, elem_of_app.
      split; [tauto|]. intros [Hl [Hb|Hb]]; [done|].
      apply list_elem_of_singleton in Hb as ->. apply Hseen in Hin. tauto.
    + rewrite bool_decide_eq_false_2 by (intros Hb; apply Hin, Hseen; done).
      cbn [app]. f_equal. apply IH. intros l.
      rewrite elem_of_union, elem_of_singleton, Hseen, elem_of_app,
        list_elem_of_singleton.
      split; [intros [->|[? ?]]; tauto|]. intros [Hl [Hb|Hb]]; tauto.
  - cbn [app]. f_equal. apply IH. intros l. rewrite Hseen, elem_of_app.
    split; [tauto|]. intros [Hl [Hb|Hb]]; [done|].
    apply list_elem_of_singleton in Hb as ->. congruence.
Qed.

Lemma keep_first_usings_elem (before lines : list text) (l : text) :
  l ∈ keep_first_usings before lines -> l ∈ lines.
Proof.
  revert before. induction lines as [|line rest IH]; intros before; [done|].
  cbn [keep_first_usings]. rewrite elem_of_app, elem_of_cons.
  intros [Hl|Hl]; [|right; by eapply IH].
  destruct (_ && _); [by apply elem_of_nil in Hl|].
  apply list_elem_of_singleton in Hl. by left.
Qed.

Lemma keep_first_usings_new (before lines : list text) (l : text) :
  is_using l = true -> l ∈ keep_first_usings before lines -> l ∉ before.
Proof.
  intros Hu. revert before. induction lines as [|line rest IH]; intros before.
  - intros Hl. by apply elem_of_nil in Hl.
  - cbn [keep_first_usings]. rewrite elem_of_app. intros [Hl|Hl].
    + destruct (is_using line && bool_decide (line ∈ before)) eqn:E;
        [by apply elem_of_nil in Hl|].
      apply list_elem_of_singleton in Hl as ->. rewrite Hu in E. cbn in E.
      by apply bool_decide_eq_false in E.
    + apply IH in Hl. intros Hb. apply Hl, elem_of_app. by left.
Qed.

Lemma keep_first_usings_NoDup (before lines : list text) :
  NoDup (filter (fun l => is_using l = true) (keep_first_usings before lines)).
Proof.
  revert before. induction lines as [|line rest IH]; intros before;
    [apply NoDup_nil_2|].
  cbn [keep_first_usings]. rewrite filter_app.
  destruct (is_using line) eqn:Hu; cbn [andb].
  - case_bool_decide as Hin; cbn [app]; [rewrite filter_nil; apply IH|].
    rewrite filter_cons_True by done. cbn [app]. apply NoDup_cons. split; [|apply IH].
    intros Hl. apply list_elem_of_filter in Hl as [_ Hl].
    apply keep_first_usings_new in Hl; [|done].
    apply Hl, elem_of_app. right. apply list_elem_of_here.
  - rewrite filter_cons_False by congruence. rewrite filter_nil. apply IH.
Qed.

Lemma keep_first_usings_others (before lines : list text) :
  filter (fun l => is_using l = false) (keep_first_usings before lines)
  = filter (fun l => is_using l = false) lines.
Proof.
  revert before. induction lines as [|line rest IH]; intros before; [done|].
  cbn [keep_first_usings]. rewrite filter_app, IH.
  destruct (is_using line) eqn:Hu; cbn [andb].
  - rewrite (filter_cons_False _ line rest) by congruence.
    destruct (bool_decide _); [done|].
    by rewrite filter_cons_False by congruence.
  - by rewrite !filter_cons_True by done.
Qed.

Lemma keep_first_usings_all (before lines : list text) (l : text) :
  l ∈ lines -> l ∈ before \/ l ∈ keep_first_usings before lines.
Proof.
  revert before. induction lines as [|line rest IH]; intros before Hl.
  - by apply elem_of_nil in Hl.
  - cbn [keep_first_usings]. apply elem_of_cons in Hl as [->|Hl].
    + destruct (is_using line && bool_decide (line ∈ before)) eqn:E.
      * left. apply andb_prop in E as [_ E]. by apply bool_decide_eq_true in E.
      * right. apply elem_of_app. left. apply list_elem_of_here.
    + destruct (IH (before ++ [line]) Hl) as [Hb|Hk].
      * apply elem_of_app in Hb as [Hb|Hb]; [by left|].
        apply list_elem_of_singleton in Hb as ->.
        destruct (is_using line && bool_decide (line ∈ before)) eqn:E.
        -- left. apply andb_prop in E as [_ E]. by apply bool_decide_eq_true in E.
        -- right. apply elem_of_app. left. apply list_elem_of_here.
      * right. apply elem_of_app. by right.
Qed.

(** The lines of the text that [dedupe_usings] returns. *)
Lemma dedupe_usings_lines content :
  split nl (Convert.dedupe_usings content)
  = keep_first_usings [] (split nl content).
Proof.
  unfold Convert.dedupe_usings.
  rewrite (filter_usings_keep_first []).
  2: { intros l. split.
       - intros Hl. by apply not_elem_of_empty in Hl.
       - intros [_ Hl]. by apply elem_of_nil in Hl. }
  apply split_join.
  - pose proof (split_not_nil nl content) as Hnn.
    destruct (split nl content) as [|l ls]; [done|].
    cbn [keep_first_usings]. rewrite bool_decide_eq_false_2 by apply not_elem_of_nil.
    by rewrite andb_false_r.
  - apply Forall_forall. intros l Hl. apply keep_first_usings_elem in Hl.
    by eapply split_no_sep.
Qed.

(** C9: the lines of the text after the deduplication pass are the lines
    before it without the using lines that stand among the lines before
    them.  So no using line occurs twice, every line of the input still
    occurs, and the lines that do not begin with [using ] are the same, in
    the same order.  The pass is the last step of the conversion, so the
    converted text has no using line twice. *)
Theorem using_lines_deduplicated content :
  let lines := split nl content in
  let out := split nl (Convert.dedupe_usings content) in
  out = keep_first_usings [] lines
  /\ NoDup (filter (fun l => is_using l = true) out)
  /\ (forall l, l ∈ lines -> l ∈ out)
  /\ filter (fun l => is_using l = false) out
     = filter (fun l => is_using l = false) lines
  /\ NoDup (filter (fun l => is_using l = true) (split nl (converted content))).
Proof.
  cbn zeta. rewrite dedupe_usings_lines.
  split; [done|]. split; [apply keep_first_usings_NoDup|].
  split; [|split; [apply keep_first_usings_others|]].
  - intros l Hl. destruct (keep_first_usings_all [] _ _ Hl) as [Hb|Hk]; [|done].
    by apply elem_of_nil in Hb.
  - unfold converted. cbn zeta. rewrite dedupe_usings_lines.
    apply keep_first_usings_NoDup.
Qed.

Example dedupe_usings_example :
  Convert.dedupe_usings
    (txt "using A;" ++ [nl] ++ txt "class C {}" ++ [nl] ++ txt "using B;"
     ++ [nl] ++ txt "using A;" ++ [nl] ++ txt "class C {}")
  = txt "using A;" ++ [nl] ++ txt "class C {}" ++ [nl] ++ txt "using B;"
    ++ [nl] ++ txt "class C {}".
Proof. vm_compute. reflexivity. Qed.

(** * Async signatures and the brace scan (C6) *)

Lemma count_contains c (s : text) : contains [c] s = negb (count c s =? 0).
Proof.
  induction s as [|a s IH]; [done|].
  cbn [contains count]. unfold startswith. cbn [strip_prefix].
  rewrite Ascii.eqb_sym. destruct (Ascii.eqb a c); [done|].
  cbn [Nat.add]. exact IH.
Qed.

Lemma slice_snoc {A} (lines : list A) i j x :
  i <= j -> lines !! j = Some x ->
  slice lines i (j + 1) = slice lines i j ++ [x].
Proof.
  intros Hij Hx. unfold slice.
  replace (j + 1 - i) with (S (j - i)) by lia.
  apply take_S_r. rewrite lookup_drop.
  replace (i + (j - i)) with j by lia. done.
Qed.

Lemma balance_snoc lines line :
  balance (lines ++ [line])
  = (balance lines + (Z.of_nat (count "{" line) - Z.of_nat (count "}" line)))%Z.
Proof.
  unfold balance. induction lines as [|l lines IH]; cbn [app foldr]; [lia|].
  rewrite IH. lia.
Qed.

Lemma has_open_snoc lines line :
  has_open (lines ++ [line]) = has_open lines || negb (count "{" line =? 0).
Proof.
  unfold has_open. rewrite existsb_app. cbn. by rewrite orb_false_r.
Qed.

(** The inner loop, started at line [j] with the counters of the lines
    from [i] to [j], stops where the specification says. *)
Lemma find_method_end_spec lines i j rest brace_count found_start :
  i <= j ->
  rest = drop j lines ->
  brace_count = balance (slice lines i j) ->
  found_start = has_open (slice lines i j) ->
  (forall k, k < j -> closed_at lines i k = false) ->
  is_method_end lines i
    (Convert.find_method_end rest j brace_count found_start i).
Proof.
  revert j brace_count found_start.
  induction rest as [|line rest IH]; intros j bc fs Hij Hrest Hbc Hfs Hnone.
  - cbn. right. split; [done|]. intros k.
    destruct (decide (k < j)) as [Hk|Hk]; [by apply Hnone|].
    unfold closed_at. replace (k <? length lines) with false; [by rewrite andb_false_r|].
    symmetry. apply Nat.ltb_ge.
    assert (length (drop j lines) = 0) as Hlen by (by rewrite <- Hrest).
    rewrite length_drop in Hlen. lia.
  - assert (lines !! j = Some line) as Hj.
    { rewrite <- (Nat.add_0_r j), <- lookup_drop, <- Hrest. done. }
    assert (rest = drop (S j) lines) as Hrest'.
    { rewrite (drop_S _ _ _ Hj) in Hrest. by injection Hrest. }
    cbn [Convert.find_method_end].
    change (txt "{") with ["{"%char]. change (txt "}") with ["}"%char].
    rewrite !count_contains.
    set (bc' := (bc + (Z.of_nat (count "{" line) - Z.of_nat (count "}" line)))%Z).
    set (fs' := fs || negb (count "{" line =? 0)).
    assert (Hbc' : bc' = balance (slice lines i (j + 1))).
    { rewrite (slice_snoc lines i j line) by done.
      rewrite balance_snoc. subst bc' bc. done. }
    assert (Hfs' : fs' = has_open (slice lines i (j + 1))).
    { rewrite (slice_snoc lines i j line) by done.
      rewrite has_open_snoc. subst fs' fs. done. }
    assert (Hclosed : closed_at lines i j = fs' && (bc' =? 0)%Z).
    { unfold closed_at. rewrite <- Hbc', <- Hfs'.
      apply lookup_lt_Some in Hj.
      replace (i <=? j) with true by (symmetry; by apply Nat.leb_le).
      replace (j <? length lines) with true by (symmetry; by apply Nat.ltb_lt).
      done. }
    match goal with
    | |- is_method_end _ _ ?t =>
        replace t with (if fs' && (bc' =? 0)%Z then j
                        else Convert.find_method_end rest (S j) bc' fs' i)
    end.
    2: { subst bc' fs'.
         destruct (count "{" line) as [|n] eqn:Eo;
           destruct (count "}" line) as [|m] eqn:Ec; cbn [Nat.eqb negb].
         - rewrite orb_false_r.
           replace (bc + (Z.of_nat 0 - Z.of_nat 0))%Z with bc by lia.
           done.
         - rewrite orb_false_r.
           replace (bc + (Z.of_nat 0 - Z.of_nat (S m)))%Z
             with (bc - Z.of_nat (S m))%Z by lia.
           done.
         - rewrite orb_true_r.
           replace (bc + (Z.of_nat (S n) - Z.of_nat 0))%Z
             with (bc + Z.of_nat (S n))%Z by lia.
           done.
         - rewrite orb_true_r.
           replace (bc + (Z.of_nat (S n) - Z.of_nat (S m)))%Z
             with (bc + Z.of_nat (S n) - Z.of_nat (S m))%Z by lia.
           done. }
    rewrite <- Hclosed.
    destruct (closed_at lines i j) eqn:Hc.
    + left. split; [done|]. exact Hnone.
    + apply IH; try done; try lia.
      * by replace (S j) with (j + 1) by lia.
      * by replace (S j) with (j + 1) by lia.
      * intros k Hk. destruct (decide (k = j)) as [->|]; [done|].
        apply Hnone. lia.
Qed.

Lemma is_method_end_unique lines i e1 e2 :
  is_method_end lines i e1 -> is_method_end lines i e2 -> e1 = e2.
Proof.
  intros [[H1 N1]|[-> N1]] [[H2 N2]|[-> N2]].
  - destruct (Nat.lt_trichotomy e1 e2) as [Hlt|[->|Hlt]]; [|done|].
    + rewrite (N2 e1 Hlt) in H1. discriminate.
    + rewrite (N1 e2 Hlt) in H2. discriminate.
  - rewrite N2 in H1. discriminate.
  - rewrite N1 in H2. discriminate.
  - done.
Qed.

(** One round of the outer loop, on a list whose lines from [k] on are
    still the original ones. *)
Lemma drop_async_at_spec (lines cur : list text) k line :
  cur !! k = Some line ->
  drop k cur = drop k lines ->
  Convert.drop_async_at cur k line = <[k := without_async lines k line]> cur.
Proof.
  intros Hk Hdrop. unfold Convert.drop_async_at, without_async, slice.
  fold (is_async_signature line). rewrite Hdrop.
  destruct (is_async_signature line); [|by rewrite list_insert_id].
  cbn zeta.
  destruct (contains (txt "await ") _); cbn [negb]; [by rewrite list_insert_id|].
  done.
Qed.

Lemma drop_async_loop_spec (lines : list text) n k cur :
  n + k = length lines ->
  cur = take k (imap (without_async lines) lines) ++ drop k lines ->
  Convert.drop_async_loop n k cur = imap (without_async lines) lines.
Proof.
  revert k cur. induction n as [|n IH]; intros k cur Hlen Hcur.
  - cbn. subst cur. rewrite take_ge by (rewrite length_imap; lia).
    rewrite drop_ge by lia. by rewrite app_nil_r.
  - assert (k < length lines) as Hk by lia.
    destruct (lookup_lt_is_Some_2 lines k Hk) as [line Hline].
    assert (length (take k (imap (without_async lines) lines)) = k) as Htk.
    { rewrite length_take, length_imap. lia. }
    assert (cur !! k = Some line) as Hck.
    { subst cur. rewrite lookup_app_r by lia. rewrite Htk, Nat.sub_diag.
      rewrite lookup_drop, Nat.add_0_r. done. }
    assert (drop k cur = drop k lines) as Hdrop.
    { subst cur. rewrite drop_app_ge by lia. rewrite Htk, Nat.sub_diag. done. }
    cbn [Convert.drop_async_loop]. rewrite Hck.
    rewrite (drop_async_at_spec lines) by done.
    apply IH; [lia|]. subst cur.
    rewrite insert_app_r_alt by lia. rewrite Htk, Nat.sub_diag.
    rewrite (drop_S _ _ _ Hline). cbn [insert list_insert].
    rewrite (take_S_r _ _ (without_async lines k line)).
    + by rewrite <- app_assoc.
    + rewrite list_lookup_imap, Hline. done.
Qed.

(** What the loop of step 6 leaves at each index. *)
Lemma drop_async_loop_lines (lines : list text) :
  Convert.drop_async_loop (length lines) 0 lines
  = imap (without_async lines) lines.
Proof. apply drop_async_loop_spec; [lia|]. by rewrite take_0, drop_0. Qed.



Example drop_unneeded_async_example :
  Convert.drop_async_loop 8 0
    [txt "public async Task A()"; txt "{"; txt "  Assert.True(x);"; txt "}";
     txt "public async Task B()"; txt "{"; txt "  await F();"; txt "}"]
  = [txt "public void A()"; txt "{"; txt "  Assert.True(x);"; txt "}";
     txt "public async Task B()"; txt "{"; txt "  await F();"; txt "}"].
Proof. vm_compute. reflexivity. Qed.

(** * One pass per rule (C7) *)

(** The matcher hands to its continuation only what is left of its
    input. *)
Lemma repeat_greedy_suffix (m : matcher) :
  (forall s c k res, m s c k = Some res ->
     exists s' c', s' `suffix_of` s /\ k s' c' = Some res) ->
  forall fuel s c k res,
    repeat_greedy m fuel s c k = Some res ->
    exists s' c', s' `suffix_of` s /\ k s' c' = Some res.
Proof.
  intros Hm. induction fuel as [|fuel IH]; intros s c k res Hres.
  - cbn in Hres. exists s, c. done.
  - cbn [repeat_greedy] in Hres.
    match type of Hres with
    | context [m s c ?k'] => destruct (m s c k') as [res'|] eqn:E
    end.
    + injection Hres as ->. apply Hm in E as (s1 & c1 & Hs1 & Hk).
      destruct (length s1 <? length s); [|discriminate].
      apply IH in Hk as (s2 & c2 & Hs2 & Hk). exists s2, c2.
      split; [by etrans|done].
    + exists s, c. done.
Qed.

Lemma rmatch_suffix r s c k res :
  rmatch r s c k = Some res ->
  exists s' c', s' `suffix_of` s /\ k s' c' = Some res.
Proof.
  revert s c k res.
  induction r as [l|cl|r1 IH1 r2 IH2|r1 IH1 r2 IH2|r1 IH1|r1 IH1|r1 IH1|n r1 IH1];
    intros s c k res Hres; cbn [rmatch] in Hres.
  - destruct (strip_prefix l s) as [s'|] eqn:E; [|discriminate].
    apply strip_prefix_Some in E. exists s', c. split; [|done].
    exists l. done.
  - destruct s as [|a s]; [discriminate|].
    destruct (in_class cl a); [|discriminate].
    exists s, c. split; [|done]. by exists [a].
  - apply IH1 in Hres as (s1 & c1 & Hs1 & Hres).
    apply IH2 in Hres as (s2 & c2 & Hs2 & Hres).
    exists s2, c2. split; [by etrans|done].
  - destruct (rmatch r1 s c k) as [res'|] eqn:E.
    + injection Hres as ->. exact (IH1 _ _ _ _ E).
    + exact (IH2 _ _ _ _ Hres).
  - destruct (rmatch r1 s c k) as [res'|] eqn:E.
    + injection Hres as ->. exact (IH1 _ _ _ _ E).
    + exists s, c. done.
  - exact (repeat_greedy_suffix (rmatch r1) IH1 _ _ _ _ _ Hres).
  - apply IH1 in Hres as (s1 & c1 & Hs1 & Hres).
    apply (repeat_greedy_suffix (rmatch r1) IH1) in Hres
      as (s2 & c2 & Hs2 & Hres).
    exists s2, c2. split; [by etrans|done].
  - apply IH1 in Hres as (s1 & c1 & Hs1 & Hres). eauto.
Qed.

(** A match consumes a prefix of the text, a non-empty one when it has
    to advance. *)
Lemma match_here_prefix r adv s rest c :
  match_here r adv s = Some (rest, c) ->
  exists m, s = m ++ rest /\ (adv = true -> m <> []).
Proof.
  unfold match_here. intros H.
  apply rmatch_suffix in H as (s' & c' & [m Hm] & Hk).
  destruct adv; cbn [andb] in Hk.
  - destruct (length s' =? length s) eqn:E; [discriminate|].
    injection Hk as -> ->. exists m. split; [done|].
    intros _ ->. apply Nat.eqb_neq in E. by subst s.
  - injection Hk as -> ->. exists m. split; [done|]. discriminate.
Qed.

Lemma take_match_length (m rest : text) :
  take (length (m ++ rest) - length rest) (m ++ rest) = m.
Proof.
  rewrite length_app, Nat.add_sub. apply take_app_length.
Qed.

Lemma emptiness_test (m rest : text) :
  (length rest =? length (m ++ rest)) = bool_decide (m = []).
Proof.
  rewrite length_app. destruct m as [|a m]; cbn [length].
  - rewrite Nat.eqb_refl. done.
  - rewrite bool_decide_eq_false_2 by done. apply Nat.eqb_neq. lia.
Qed.

(** With enough fuel the scan of [re.sub] is a single pass. *)
Lemma sub_from_single_pass r repl fuel (adv : bool) (s : text) :
  2 * length s + (if adv then 1 else 2) <= fuel ->
  single_pass r repl adv s (sub_from fuel r repl adv s).
Proof.
  revert adv s. induction fuel as [|fuel IH]; intros adv s Hfuel.
  - destruct adv; lia.
  - cbn [sub_from].
    destruct (match_here r adv s) as [[rest c]|] eqn:E.
    + destruct (match_here_prefix _ _ _ _ _ E) as (m & -> & Hne).
      rewrite take_match_length, emptiness_test.
      apply pass_replace; [done|]. apply IH.
      rewrite length_app in Hfuel.
      case_bool_decide as Hm.
      * subst m. destruct adv; [by destruct Hne|]. cbn [length] in Hfuel. lia.
      * destruct m; [done|]. cbn [length] in Hfuel. destruct adv; lia.
    + destruct s as [|a s].
      * by apply pass_end.
      * apply pass_copy; [done|]. apply IH. cbn [length] in Hfuel.
        destruct adv; lia.
Qed.

(** The pass has one result. *)
Lemma single_pass_unique r repl adv s out1 out2 :
  single_pass r repl adv s out1 -> single_pass r repl adv s out2 -> out1 = out2.
Proof.
  intros H1. revert out2.
  induction H1 as [adv Hn|adv a s out Hn H1 IH|adv m rest c out Hm H1 IH];
    intros out2 H2.
  - inversion H2 as [|? ? ? ? Hn' H2'|? m' rest' c' out' Hm' H2' Hadv Hs Hout];
      [done|].
    apply app_eq_nil in Hs as [-> ->]. cbn [app] in Hm'. congruence.
  - inversion H2 as [|? ? ? ? Hn' H2'|? m' rest' c' out' Hm' H2' Hadv Hs Hout].
    + f_equal. by apply IH.
    + rewrite Hs in Hm'. congruence.
  - remember (m ++ rest) as s eqn:Hs. remember adv as adv' eqn:Hadv in H2.
    destruct H2 as [adv' Hn'|adv' a s' out' Hn' H2'|adv' m' rest' c' out' Hm' H2'];
      subst adv'.
    + congruence.
    + congruence.
    + rewrite Hm in Hm'. injection Hm' as ? ?. subst.
      apply app_inv_tail in Hs. subst. f_equal. by apply IH.
Qed.

(** [re.sub] with a compiled pattern is the single pass, and nothing
    else is. *)
Lemma sub_with_single_pass r repl s out :
  single_pass r repl false s out <-> out = sub_with r repl s.
Proof.
  assert (single_pass r repl false s (sub_with r repl s)) as H.
  { apply sub_from_single_pass. lia. }
  split; [intros H'; by eapply single_pass_unique|by intros ->].
Qed.

(** [re.sub] with a pattern and a template that [re] accepts returns the
    single pass of the compiled pattern, with the template expanded at
    each match. *)
Lemma re_sub_single_pass pattern repl content out :
  re_sub pattern repl content = Ok out ->
  exists r t,
    compile pattern = Parsed r
    /\ parse_template repl = Some t
    /\ single_pass r (fun _ c => expand t c) false content out.
Proof.
  unfold re_sub. intros H.
  destruct (compile pattern) as [r|e]; [|discriminate].
  destruct (parse_template repl) as [t|]; [|discriminate].
  injection H as <-. exists r, t. split; [done|]. split; [done|].
  by apply sub_with_single_pass.
Qed.

(** The pass is not repeated on its own output: after the first rule of
    the converter a match of its pattern can be left. *)
Example using_rule_is_not_a_fixed_point :
  let s := txt "using TUnit.using TUnit.Core;" ++ [nl] ++ txt "Core;" ++ [nl] in
  re_sub (py "using TUnit\.Core;?\s*\n") (py "") s
  = Ok (txt "using TUnit.Core;" ++ [nl])
  /\ re_sub (py "using TUnit\.Core;?\s*\n") (py "")
       (txt "using TUnit.Core;" ++ [nl]) = Ok [].
Proof. vm_compute. split; reflexivity. Qed.

(** C7 at the eleventh rule of fix-remaining-xunit-issues.py (line 35):
    the closing parenthesis of the pattern has lost its backslash, [re]
    refuses the pattern, and applying the rule raises on every buffer
    instead of replacing the matches. *)
Theorem unbalanced_rule_replaces_nothing :
  FixRemaining.rules !! 10
  = Some (Rule unbalanced_pattern (py "Assert.Equal(\2, \1)"))
  /\ forall repl content,
       re_sub unbalanced_pattern repl content
       = Raise (ReError unbalanced_pattern Unbalanced).
Proof.
  split; [vm_compute; reflexivity|].
  intros repl content. unfold re_sub.
  by rewrite unbalanced_pattern_refused.
Qed.

(** * Running a script twice (C4) *)

Lemma search_false_here r a s :
  search r (a :: s) = false ->
  match_here r false (a :: s) = None /\ search r s = false.
Proof.
  cbn [search]. by destruct (match_here r false (a :: s)).
Qed.

(** Where the pattern matches nowhere the pass copies the text. *)
Lemma sub_from_no_match r repl fuel s :
  search r s = false -> sub_from fuel r repl false s = s.
Proof.
  revert s. induction fuel as [|fuel IH]; intros s Hs; [done|].
  destruct s as [|a s].
  - cbn [search] in Hs. cbn [sub_from].
    by destruct (match_here r false []).
  - apply search_false_here in Hs as [Hm Hs].
    cbn [sub_from]. rewrite Hm. f_equal. by apply IH.
Qed.

Lemma apply_rule_no_match r s :
  match compile (pattern r) with
  | Parsed re => negb (search re s)
  | Failed _ => true
  end = true ->
  apply_rule r s = s.
Proof.
  unfold apply_rule, re_sub. destruct (compile (pattern r)) as [re|e]; [|done].
  intros Hs. apply negb_true_iff in Hs.
  destruct (parse_template (replacement r)); [|done].
  unfold sub_with. by apply sub_from_no_match.
Qed.

Lemma rewrite_with_no_match rules s :
  no_rule_matches rules s = true -> rewrite_with rules s = s.
Proof.
  unfold no_rule_matches, rewrite_with.
  induction rules as [|r rules IH]; [done|].
  cbn [forallb fold_left]. intros H. apply andb_prop in H as [Hr Hrs].
  rewrite apply_rule_no_match by done. by apply IH.
Qed.

(** C4, as far as it holds: a second application of the rules of a
    script leaves the output of the first as it is whenever no pattern of
    the script matches anywhere in that output, and a second run of the
    converter leaves its output as it is whenever that output has none of
    the trigger markers. *)
Theorem second_run_without_match_changes_nothing rules content :
  (no_rule_matches rules (rewrite_with rules content) = true ->
   rewrite_with rules (rewrite_with rules content) = rewrite_with rules content)
  /\ (Convert.has_tunit_syntax (converter_output content) = false ->
      converter_output (converter_output content) = converter_output content).
Proof.
  split.
  - apply rewrite_with_no_match.
  - intros H. unfold converter_output at 1. by rewrite H.
Qed.

(** A test with a count of zero, through fix-xunit-warnings.py and
    through the converter. *)
Lemma second_run_without_match_changes_nothing_witness :
  let content := txt "[Test] Assert.Equal(0, xs.Count);" in
  rewrite_with FixWarnings.rules (rewrite_with FixWarnings.rules content)
  = rewrite_with FixWarnings.rules content
  /\ converter_output (converter_output content) = converter_output content.
Proof.
  intros content.
  destruct (second_run_without_match_changes_nothing FixWarnings.rules content)
    as [H1 H2].
  split; [apply H1|apply H2]; vm_compute; reflexivity.
Defined.

Lemma fix_warnings_swaps_literals :
  rewrite_with FixWarnings.rules (py "Assert.Equal(`a`, `b`);")
  = py "Assert.Equal(`b`, `a`);"
  /\ rewrite_with FixWarnings.rules (py "Assert.Equal(`b`, `a`);")
     = py "Assert.Equal(`a`, `b`);".
Proof. vm_compute. split; reflexivity. Qed.

(** C4 as stated fails: the rules of fix-xunit-warnings.py swap the
    arguments of [Assert.Equal("a", "b");] at every application, so the
    second application undoes the first. *)
Lemma fix_warnings_not_idempotent :
  ~ idempotent (rewrite_with FixWarnings.rules).
Proof.
  intros H. specialize (H (py "Assert.Equal(`a`, `b`);")).
  destruct fix_warnings_swaps_literals as [H1 H2].
  rewrite H1, H2 in H. vm_compute in H. discriminate H.
Qed.

(** * The using line of xUnit (C10) *)

Lemma other_using_not_namespace line :
  is_other_using line = true -> is_namespace line = false.
Proof.
  unfold is_other_using, is_namespace. intros H.
  apply andb_prop in H as [H _]. apply startswith_true in H as [rest ->].
  reflexivity.
Qed.

(** The loop, started at index [i] with [insert_index], returns the index
    behind the last other using line of the header, if there is one. *)
Lemma find_insert_index_spec lines i insert_index :
  (exists k,
      Convert.find_insert_index lines i insert_index = i + k
      /\ 0 < k
      /\ header lines !! (k - 1) ≠ None
      /\ (exists line, header lines !! (k - 1) = Some line
                       /\ is_other_using line = true)
      /\ forall j line, header lines !! j = Some line -> k <= j ->
                        is_other_using line = false)
  \/ (Convert.find_insert_index lines i insert_index = insert_index
      /\ forall j line, header lines !! j = Some line ->
                        is_other_using line = false).
Proof.
  revert i insert_index. induction lines as [|line rest IH]; intros i idx.
  - right. split; [done|]. intros j line Hj. cbn [header] in Hj.
    by rewrite lookup_nil in Hj.
  - cbn [Convert.find_insert_index header]. fold (is_other_using line).
    fold (is_namespace line).
    destruct (is_other_using line) eqn:Hu.
    + rewrite (other_using_not_namespace _ Hu). left.
      destruct (IH (S i) (i + 1)) as [(k & Hk & Hpos & Hsome & Hline & Hlast)
                                     |(Hk & Hnone)].
      * exists (S k). rewrite Hk. split; [lia|]. split; [lia|].
        replace (S k - 1) with (S (k - 1)) by lia. cbn [lookup list_lookup].
        split; [done|]. split; [done|].
        intros j l Hj Hle. destruct j as [|j]; [lia|].
        cbn in Hj. apply (Hlast j l Hj). lia.
      * exists 1. rewrite Hk. split; [done|]. split; [lia|]. cbn.
        split; [done|]. split; [by exists line|].
        intros j l Hj Hle. destruct j as [|j]; [lia|].
        cbn in Hj. by apply (Hnone j l).
    + destruct (is_namespace line) eqn:Hn.
      * right. split; [done|]. intros j l Hj. by rewrite lookup_nil in Hj.
      * destruct (IH (S i) idx) as [(k & Hk & Hpos & Hsome & Hline & Hlast)
                                   |(Hk & Hnone)].
        -- left. exists (S k). rewrite Hk. split; [lia|]. split; [lia|].
           replace (S k - 1) with (S (k - 1)) by lia. cbn [lookup list_lookup].
           split; [done|]. split; [done|].
           intros j l Hj Hle. destruct j as [|j]; [lia|].
           cbn in Hj. apply (Hlast j l Hj). lia.
        -- right. rewrite Hk. split; [done|].
           intros j l Hj. destruct j as [|j].
           ++ cbn in Hj. by injection Hj as <-.
           ++ cbn in Hj. by apply (Hnone j l).
Qed.

Lemma find_insert_index_behind_last_using lines :
  behind_last_using (header lines) (Convert.find_insert_index lines 0 0).
Proof.
  destruct (find_insert_index_spec lines 0 0)
    as [(k & Hk & Hpos & Hsome & Hline & Hlast)|(Hk & Hnone)];
    rewrite Hk; cbn [Nat.add].
  - split; [done|]. by right.
  - split; [|by left]. intros j line Hj _. by apply (Hnone j line).
Qed.

(** ** Lines of a joined text *)

Lemma split_app_sep c (s1 s2 : text) :
  split c (s1 ++ c :: s2) = split c s1 ++ split c s2.
Proof.
  induction s1 as [|a s1 IH].
  - cbn. by rewrite Ascii.eqb_refl.
  - cbn [app]. destruct (decide (a = c)) as [->|Hne].
    + cbn [split]. rewrite Ascii.eqb_refl. cbn. by rewrite IH.
    + rewrite !split_cons_ne by done. rewrite IH.
      pose proof (split_not_nil c s1) as Hnn.
      by destruct (split c s1).
Qed.

Lemma elem_of_split_join c (ls : list text) l :
  l ∈ ls -> c ∉ l -> l ∈ split c (join [c] ls).
Proof.
  intros Hin Hl. induction ls as [|l0 ls IH]; [by apply elem_of_nil in Hin|].
  destruct ls as [|l1 ls].
  - apply list_elem_of_singleton in Hin as ->. cbn. rewrite split_line by done.
    apply list_elem_of_here.
  - rewrite join_cons by done. cbn [app]. rewrite split_app_sep.
    apply elem_of_app. apply elem_of_cons in Hin as [->|Hin].
    + left. rewrite split_line by done. apply list_elem_of_here.
    + right. by apply IH.
Qed.

Lemma xunit_line_no_nl : nl ∉ xunit_line.
Proof.
  intros H. vm_compute in H.
  repeat (apply elem_of_cons in H as [H|H]; [discriminate H|]).
  by apply elem_of_nil in H.
Qed.

(** Where the markers of a test are there and the text [using Xunit;] is
    not, the line is put at the index the loop found. *)
Lemma ensure_xunit_using_inserts content :
  contains (txt "[Test]") content || contains (txt "[Fact]") content = true ->
  contains xunit_line content = false ->
  split nl (Convert.ensure_xunit_using content)
  = take (Convert.find_insert_index (split nl content) 0 0) (split nl content)
    ++ xunit_line
    :: drop (Convert.find_insert_index (split nl content) 0 0) (split nl content).
Proof.
  intros Hm Hx. unfold Convert.ensure_xunit_using.
  rewrite Hm. fold xunit_line. rewrite Hx. cbn [negb]. cbn zeta.
  unfold list_insert_at. apply split_join.
  - by destruct (take _ _).
  - apply Forall_app. split.
    + apply Forall_forall. intros l Hl. apply elem_of_take in Hl as (j & Hl & _).
      apply list_elem_of_lookup_2 in Hl. by eapply split_no_sep.
    + apply Forall_cons. split; [apply xunit_line_no_nl|].
      apply Forall_forall. intros l Hl. apply list_elem_of_lookup in Hl as [j Hl].
      rewrite lookup_drop in Hl. apply list_elem_of_lookup_2 in Hl.
      by eapply split_no_sep.
Qed.

Lemma ensure_xunit_using_keeps content :
  contains (txt "[Test]") content || contains (txt "[Fact]") content = false
  \/ contains xunit_line content = true ->
  Convert.ensure_xunit_using content = content.
Proof.
  unfold Convert.ensure_xunit_using. fold xunit_line.
  intros [->| ->]; [done|]. cbn [negb]. by destruct (_ || _).
Qed.

(** * The line [using Xunit;] through a pass *)

Lemma xunit_line_cons : xunit_line = "u"%char :: txt "sing Xunit;".
Proof. reflexivity. Qed.

Lemma elem_of_line_chars_head (t : text) a t' h :
  xunit_line = h ++ t -> t = a :: t' -> a ∈ line_chars.
Proof.
  intros Hl ->. unfold line_chars. rewrite Hl. apply list_elem_of_further.
  apply elem_of_app. right. apply list_elem_of_here.
Qed.

Lemma ends_nl_cons a (pre : text) :
  (exists pre', pre = pre' ++ [nl]) -> exists pre', a :: pre = pre' ++ [nl].
Proof. intros [pre' ->]. by exists (a :: pre'). Qed.

Lemma ends_nl_app (u pre : text) :
  (exists pre', pre = pre' ++ [nl]) -> exists pre', u ++ pre = pre' ++ [nl].
Proof. intros [pre' ->]. exists (u ++ pre'). by rewrite app_assoc. Qed.

Lemma line_inside_weaken b s : line_inside false s -> line_inside b s.
Proof.
  intros (pre & post & Hs & Hpost & [[? _]|Hpre]); [done|].
  exists pre, post. split; [done|]. split; [done|]. by right.
Qed.

Lemma line_inside_cons b a s : line_inside false s -> line_inside b (a :: s).
Proof.
  intros (pre & post & -> & Hpost & [[? _]|Hpre]); [done|].
  exists (a :: pre), post. split; [done|]. split; [done|].
  right. by apply ends_nl_cons.
Qed.

Lemma line_inside_app b u s : line_inside false s -> line_inside b (u ++ s).
Proof.
  intros (pre & post & -> & Hpost & [[? _]|Hpre]); [done|].
  exists (u ++ pre), post. split; [by rewrite app_assoc|]. split; [done|].
  right. by apply ends_nl_app.
Qed.

Lemma tail_ends_nl (pre m k : text) a :
  pre ++ [nl] = m ++ a :: k -> exists k', a :: k = k' ++ [nl].
Proof.
  intros H. destruct (@exists_last _ (a :: k)) as (k' & z & Hk'); [done|].
  exists k'. rewrite Hk'. rewrite Hk', app_assoc in H.
  apply app_inj_tail in H as [_ ->]. done.
Qed.

Section Pass.
Context (r : regex) (repl : text -> caps -> text).
Hypothesis Hkeeps : keeps_line r repl.

(** While the scan is inside the line it copies. *)
Lemma single_pass_copies_line adv s out :
  single_pass r repl adv s out ->
  forall h t post,
    xunit_line = h ++ t ->
    s = t ++ post ->
    (post = [] \/ exists post', post = nl :: post') ->
    exists post', out = t ++ post' /\ (post' = [] \/ exists p, post' = nl :: p).
Proof.
  induction 1 as [adv Hn|adv a s out Hn H1 IH|adv m rest c out Hm H1 IH];
    intros h t post Hl Hs Hpost.
  - symmetry in Hs. apply app_eq_nil in Hs as [-> ->]. exists []. by split; [|left].
  - destruct t as [|a' t'].
    + cbn [app] in Hs. destruct Hpost as [->|[post' ->]]; [discriminate|].
      injection Hs as -> ->. exists (nl :: out). split; [done|]. right. eauto.
    + injection Hs as -> ->.
      destruct (IH (h ++ [a']) t' post) as (post' & -> & Hp); try done.
      { by rewrite <- app_assoc. }
      exists post'. done.
  - exfalso. destruct m as [|a m].
    { by apply (no_empty_match _ _ Hkeeps) in Hm. }
    cbn [app] in Hm.
    apply (no_start_in_line _ _ Hkeeps) in Hm; [done|].
    cbn [app] in Hs. destruct t as [|a' t'].
    + cbn [app] in Hs. destruct Hpost as [->|[post' ->]]; [discriminate|].
      injection Hs as -> _. apply list_elem_of_here.
    + injection Hs as -> _. by eapply elem_of_line_chars_head.
Qed.

(** The line survives the pass. *)
Lemma single_pass_keeps_line adv s out :
  single_pass r repl adv s out ->
  forall b, line_inside b s -> line_inside b out.
Proof.
  intros Hpass.
  induction Hpass as [adv Hn|adv a s out Hn H1 IH|adv m rest c out Hm H1 IH];
    intros b (pre & post & Hs & Hpost & Hpre).
  - symmetry in Hs. apply app_eq_nil in Hs as [_ Hs]. discriminate.
  - destruct pre as [|a' pre1].
    + (* the line begins here *)
      destruct Hpre as [[-> _]|[pre' Hp]]; [|by destruct pre'].
      destruct (single_pass_copies_line _ _ _
                  (pass_copy r repl adv a s out Hn H1) [] xunit_line post)
        as (post' & Hout & Hp'); try done.
      exists [], post'. split; [done|]. split; [done|]. by left.
    + injection Hs as -> ->.
      destruct Hpre as [[_ ?]|[pre' Hp]]; [done|].
      destruct pre1 as [|a1 pre2].
      * (* the line begins behind this line feed *)
        destruct pre' as [|? [|? ?]]; try discriminate. injection Hp as ->.
        destruct (single_pass_copies_line _ _ _ H1 [] xunit_line post)
          as (post' & -> & Hp'); try done.
        exists [nl], post'. split; [done|]. split; [done|]. right. by exists [].
      * apply line_inside_cons. apply IH.
        exists (a1 :: pre2), post. split; [done|]. split; [done|]. right.
        destruct pre' as [|? pre'']; [discriminate|]. injection Hp as _ Hp.
        by exists pre''.
  - destruct m as [|a m].
    { by apply (no_empty_match _ _ Hkeeps) in Hm. }
    destruct Hpre as [[_ ->]|[pre' ->]].
    { (* a match cannot begin with the line *)
      exfalso. cbn [app] in Hs, Hm.
      apply (no_start_in_line _ _ Hkeeps) in Hm; [done|].
      rewrite xunit_line_cons in Hs. injection Hs as -> _.
      unfold line_chars. apply list_elem_of_further. rewrite xunit_line_cons.
      apply list_elem_of_here. }
    apply app_eq_inv in Hs as [(k & Hk1 & Hk2)|(k & Hk1 & Hk2)].
    + (* the match ends inside or behind the line *)
      destruct k as [|ak k].
      { exfalso. rewrite app_nil_r in Hk1. rewrite Hk1 in Hm.
        by apply (no_end_at_nl _ _ Hkeeps) in Hm. }
      assert (a :: m = pre' ++ [nl] ++ ak :: k) as Hm'.
      { by rewrite Hk1, <- app_assoc. }
      rewrite Hm' in Hm |- *.
      destruct (line_given_back _ _ Hkeeps adv pre' (ak :: k) rest post c)
        as (u & v & Hrepl); try done.
      rewrite Hrepl.
      exists (u ++ [nl]), (nl :: v ++ out). split.
      { by rewrite <- !app_assoc. }
      split; [right; eauto|]. right. by exists u.
    + (* the match ends before the line *)
      destruct k as [|ak k].
      { exfalso. rewrite app_nil_r in Hk1. rewrite <- Hk1 in Hm.
        by apply (no_end_at_nl _ _ Hkeeps) in Hm. }
      apply line_inside_app. apply IH.
      destruct (tail_ends_nl _ _ _ _ Hk1) as [k' Hk'].
      exists (ak :: k), post. split; [done|]. split; [done|]. right. eauto.
Qed.
End Pass.

(** * Matches of a sequence of literals and runs *)

Lemma rmatch_Cls cl s c k :
  rmatch (Cls cl) s c k
  = match s with
    | [] => None
    | a :: s' => if in_class cl a then k s' c else None
    end.
Proof. reflexivity. Qed.

Lemma repeat_class_sound cl fuel s c k res :
  repeat_greedy (rmatch (Cls cl)) fuel s c k = Some res ->
  exists p s',
    s = p ++ s' /\ Forall (fun a => in_class cl a = true) p
    /\ k s' c = Some res.
Proof.
  revert s. induction fuel as [|fuel IH]; intros s H.
  - cbn in H. exists [], s. done.
  - cbn [repeat_greedy] in H. rewrite rmatch_Cls in H. destruct s as [|a s].
    + exists [], []. done.
    + destruct (in_class cl a) eqn:Ha; [|exists [], (a :: s); done].
      destruct (length s <? length (a :: s)) eqn:Hlen.
      * destruct (repeat_greedy (rmatch (Cls cl)) fuel s c k) as [res'|] eqn:E.
        -- injection H as <-. apply IH in E as (p & s' & -> & Hp & Hk).
           exists (a :: p), s'. split; [done|]. split; [|done].
           by constructor.
        -- exists [], (a :: s). done.
      * exists [], (a :: s). done.
Qed.

Lemma plus_class_sound cl s c k res :
  rmatch (Plus (Cls cl)) s c k = Some res ->
  exists p s',
    s = p ++ s' /\ p <> [] /\ Forall (fun a => in_class cl a = true) p
    /\ k s' c = Some res.
Proof.
  change (rmatch (Plus (Cls cl)) s c k)
    with (rmatch (Cls cl) s c
            (fun s' c' => repeat_greedy (rmatch (Cls cl)) (length s') s' c' k)).
  rewrite rmatch_Cls. destruct s as [|a s]; [discriminate|].
  destruct (in_class cl a) eqn:Ha; [|discriminate].
  intros H. apply repeat_class_sound in H as (p & s' & -> & Hp & Hk).
  exists (a :: p), s'. split; [done|]. split; [done|]. split; [|done].
  by constructor.
Qed.

Lemma seg_sound r x s c k res :
  seg_of r = Some x ->
  rmatch r s c k = Some res ->
  exists p s',
    s = p ++ s' /\ seg_match x p /\ k s' (caps_of [x] [p] c) = Some res.
Proof.
  intros Hx H. destruct r as [l|cl|r1 r2|r1 r2|r1|r1|r1|n r1]; try discriminate.
  - injection Hx as <-. cbn [rmatch] in H.
    destruct (strip_prefix l s) as [s'|] eqn:E; [|discriminate].
    apply strip_prefix_Some in E. exists l, s'. done.
  - destruct r1 as [| cl | | | | | |]; try discriminate. injection Hx as <-.
    apply plus_class_sound in H as (p & s' & -> & Hne & Hp & Hk).
    exists p, s'. done.
  - destruct r1 as [| | | | | |r1|]; try discriminate.
    destruct r1 as [| cl | | | | | |]; try discriminate. injection Hx as <-.
    change (rmatch (Grp n (Plus (Cls cl))) s c k)
      with (rmatch (Plus (Cls cl)) s c
              (fun s' c' => k s' ((n, take (length s - length s') s) :: c')))
      in H.
    apply plus_class_sound in H as (p & s' & -> & Hne & Hp & Hk).
    rewrite take_match_length in Hk. exists p, s'. done.
Qed.

Lemma caps_of_cons x sh p parts c :
  caps_of (x :: sh) (p :: parts) c = caps_of sh parts (caps_of [x] [p] c).
Proof. destruct x as [l|[n|] cl]; by destruct sh, parts. Qed.

Lemma seg_shape_sound r sh s c k res :
  (fun x => [x]) <$> seg_of r = Some sh ->
  rmatch r s c k = Some res ->
  exists parts s',
    s = concat parts ++ s'
    /\ Forall2 seg_match sh parts
    /\ k s' (caps_of sh parts c) = Some res.
Proof.
  intros Hsh H. destruct (seg_of r) as [x|] eqn:Hx; [|done].
  injection Hsh as <-.
  destruct (seg_sound _ _ _ _ _ _ Hx H) as (p & s' & -> & Hp & Hk).
  exists [p], s'. cbn [concat]. rewrite app_nil_r. split; [done|].
  split; [|done]. by repeat constructor.
Qed.

(** A match of such a pattern is the literals and the runs one after the
    other, and the groups are the captured runs. *)
Lemma shape_sound r sh s c k res :
  shape_of r = Some sh ->
  rmatch r s c k = Some res ->
  exists parts s',
    s = concat parts ++ s'
    /\ Forall2 seg_match sh parts
    /\ k s' (caps_of sh parts c) = Some res.
Proof.
  revert sh s c k res.
  induction r as [l|cl|r1 IH1 r2 IH2|r1 IH1 r2 IH2|r1 IH1|r1 IH1|r1 IH1|n r1 IH1];
    intros sh s c k res Hsh H; try (by eapply seg_shape_sound).
  cbn [shape_of] in Hsh.
  destruct (seg_of r1) as [x|] eqn:Hx; [|done].
  destruct (shape_of r2) as [sh2|] eqn:Hsh2; [|done].
  injection Hsh as <-. cbn [rmatch] in H.
  destruct (seg_sound _ _ _ _ _ _ Hx H) as (p & s1 & -> & Hp & Hk).
  destruct (IH2 _ _ _ _ _ eq_refl Hk) as (parts & s' & -> & Hparts & Hk').
  exists (p :: parts), s'. cbn [concat]. rewrite <- app_assoc.
  split; [done|]. split; [by constructor|]. by rewrite caps_of_cons.
Qed.

Lemma match_here_shape r sh adv s rest c :
  shape_of r = Some sh ->
  match_here r adv s = Some (rest, c) ->
  exists parts,
    s = concat parts ++ rest
    /\ Forall2 seg_match sh parts
    /\ c = caps_of sh parts [].
Proof.
  intros Hsh H. unfold match_here in H.
  destruct (shape_sound _ _ _ _ _ _ Hsh H) as (parts & s' & Hs & Hparts & Hk).
  destruct (adv && (length s' =? length s)); [discriminate|].
  injection Hk as -> <-. by exists parts.
Qed.

(** * Rules that keep the line [using Xunit;] *)

Lemma starts_outside_cons l :
  starts_outside l = true -> exists a l', l = a :: l' /\ a ∉ line_chars.
Proof.
  destruct l as [|a l']; [done|]. cbn [starts_outside]. intros H.
  exists a, l'. split; [done|].
  by apply negb_true_iff, bool_decide_eq_false in H.
Qed.

Lemma shape_safe_tail x sh : shape_safe (x :: sh) = true -> shape_safe sh = true.
Proof.
  destruct x as [l|g cl]; cbn [shape_safe]; intros H;
    by apply andb_prop in H as [_ H].
Qed.

Lemma shape_safe_lit l sh :
  shape_safe (SLit l :: sh) = true -> (nl ∉ l) /\ l <> [].
Proof.
  cbn [shape_safe]. intros H. apply andb_prop in H as [H _].
  apply andb_prop in H as [H1 H2].
  apply negb_true_iff, bool_decide_eq_false in H1.
  apply negb_true_iff, bool_decide_eq_false in H2. done.
Qed.

Lemma shape_safe_run g cl sh :
  shape_safe (SRun g cl :: sh) = true ->
  exists l sh', sh = SLit l :: sh' /\ starts_outside l = true.
Proof.
  cbn [shape_safe]. intros H. apply andb_prop in H as [H _].
  destruct sh as [|[l|g' cl'] sh']; try discriminate. by exists l, sh'.
Qed.

(** A match does not end with a line feed. *)
Lemma shape_last_not_nl sh parts :
  Forall2 seg_match sh parts -> shape_safe sh = true -> sh <> [] ->
  exists y z, concat parts = y ++ [z] /\ z <> nl.
Proof.
  induction 1 as [|x p sh parts Hp Hall IH]; intros Hsafe Hne; [done|].
  destruct sh as [|x' sh'].
  - inversion Hall; subst. destruct x as [l|g cl].
    + apply shape_safe_lit in Hsafe as [H1 H2]. cbn [seg_match] in Hp. subst p.
      destruct (@exists_last _ l H2) as (y & z & ->).
      exists y, z. cbn [concat]. rewrite app_nil_r. split; [done|].
      intros ->. apply H1. apply elem_of_app. right. apply list_elem_of_here.
    + by apply shape_safe_run in Hsafe as (l & sh' & ? & _).
  - destruct IH as (y & z & Hy & Hz); [by eapply shape_safe_tail|done|].
    exists (p ++ y), z. cbn [concat]. by rewrite Hy, app_assoc.
Qed.

(** A match that begins before the line and ends in it or behind it has
    the whole line, with the line feeds around it, in one of its runs. *)
Lemma run_holds_line sh parts pre x rest post :
  Forall2 seg_match sh parts ->
  shape_safe sh = true ->
  concat parts = pre ++ [nl] ++ x ->
  x <> [] ->
  x ++ rest = xunit_line ++ post ->
  (post = [] \/ exists post', post = nl :: post') ->
  exists g cl a b,
    (SRun g cl, a ++ [nl] ++ xunit_line ++ [nl] ++ b) ∈ zip sh parts
    /\ Forall (fun ch => in_class cl ch = true)
         (a ++ [nl] ++ xunit_line ++ [nl] ++ b).
Proof.
  intros Hall. revert pre.
  induction Hall as [|sg p sh parts Hp Hall IH];
    intros pre Hsafe Hc Hx Hxr Hpost.
  - cbn in Hc. by destruct pre.
  - assert (forall pre',
              concat parts = pre' ++ [nl] ++ x ->
              exists g cl a b,
                (SRun g cl, a ++ [nl] ++ xunit_line ++ [nl] ++ b)
                  ∈ zip (sg :: sh) (p :: parts)
                /\ Forall (fun ch => in_class cl ch = true)
                     (a ++ [nl] ++ xunit_line ++ [nl] ++ b)) as Hlater.
    { intros pre' Hc'.
      destruct (IH pre') as (g & cl & a & b & Hin & Hcl); try done.
      { by eapply shape_safe_tail. }
      exists g, cl, a, b. split; [|done]. by apply list_elem_of_further. }
    cbn [concat] in Hc.
    apply app_eq_inv in Hc as [(k & Hk1 & Hk2)|(k & Hk1 & Hk2)];
      [|by apply (Hlater k)].
    destruct k as [|c k'].
    { by apply (Hlater []). }
    cbn [app] in Hk2. injection Hk2 as <- Hk2.
    destruct sg as [l|g cl].
    { exfalso. apply shape_safe_lit in Hsafe as [Hnl _].
      cbn [seg_match] in Hp. subst p. apply Hnl. rewrite Hk1.
      apply elem_of_app. right. apply list_elem_of_here. }
    apply shape_safe_run in Hsafe as (l & sh' & -> & Hl).
    apply starts_outside_cons in Hl as (a0 & l' & -> & Ha0).
    inversion Hall as [|? p1 ? parts' Hp1 Hall']; subst.
    cbn [seg_match] in Hp1. subst p1. cbn [concat] in Hxr.
    rewrite <- app_assoc in Hxr. cbn [app] in Hxr.
    destruct Hp as [_ Hcl].
    assert (exists b, k' = xunit_line ++ [nl] ++ b) as [b ->].
    { apply app_eq_inv in Hxr as [(k & Hq & Hpo)|(k & Hq & Hpo)].
      - destruct k as [|z k].
        + exfalso. cbn [app] in Hpo. destruct Hpost as [->|[post' ->]];
            [discriminate|]. injection Hpo as <- _. apply Ha0.
          apply list_elem_of_here.
        + destruct Hpost as [->|[post' ->]]; [discriminate|].
          injection Hpo as -> _. by exists k.
      - exfalso. destruct k as [|z k].
        + cbn [app] in Hpo. destruct Hpost as [->|[post' ->]];
            [discriminate|]. injection Hpo as Hz _. apply Ha0. rewrite Hz.
          apply list_elem_of_here.
        + injection Hpo as <- _. apply Ha0. by eapply elem_of_line_chars_head. }
    exists g, cl, pre, b. split; [apply list_elem_of_here|done].
Qed.

Lemma caps_of_other sh parts c n :
  n ∉ group_numbers sh -> group (caps_of sh parts c) n = group c n.
Proof.
  revert parts c. induction sh as [|x sh IH]; intros parts c Hn;
    [by destruct parts|].
  destruct parts as [|p parts]; [by destruct x as [|[|]]|].
  destruct x as [l|[m|] cl]; cbn [caps_of].
  - by apply IH.
  - cbn in Hn. apply not_elem_of_cons in Hn as [Hne Hn].
    rewrite IH by done. cbn [group].
    destruct (Nat.eqb_spec m n); [congruence|done].
  - by apply IH.
Qed.

(** The group of a capturing run is the text the run matched. *)
Lemma group_caps_of sh parts c n cl p :
  NoDup (group_numbers sh) ->
  (SRun (Some n) cl, p) ∈ zip sh parts ->
  group (caps_of sh parts c) n = p.
Proof.
  revert parts c. induction sh as [|x sh IH]; intros parts c Hnd Hin.
  - by apply elem_of_nil in Hin.
  - destruct parts as [|p0 parts]; [by apply elem_of_nil in Hin|].
    cbn [zip_with] in Hin. apply elem_of_cons in Hin as [Heq|Hin].
    + injection Heq as <- <-. cbn [caps_of]. cbn in Hnd.
      apply NoDup_cons in Hnd as [Hn _].
      rewrite caps_of_other by done. cbn [group]. by rewrite Nat.eqb_refl.
    + destruct x as [l|[m|] cl']; cbn [caps_of]; cbn in Hnd.
      * by apply IH.
      * apply NoDup_cons in Hnd as [_ Hnd]. by apply IH.
      * by apply IH.
Qed.

Lemma expand_has_ref t n c :
  has_ref t n = true -> exists u v, expand t c = u ++ group c n ++ v.
Proof.
  unfold has_ref, expand. induction t as [|i t IH]; [done|].
  cbn [existsb flat_map]. intros H. apply orb_prop in H as [H|H].
  - destruct i as [a|m]; [done|]. apply Nat.eqb_eq in H as ->.
    by exists [], (flat_map (fun i => match i with
                                     | TLit a => [a]
                                     | TRef n => group c n
                                     end) t).
  - destruct (IH H) as (u & v & ->).
    exists ((match i with TLit a => [a] | TRef n => group c n end) ++ u), v.
    by rewrite app_assoc.
Qed.

Section Shape.
Context (r : regex) (repl : text -> caps -> text) (t : template).
Context (l : text) (sh : list seg).
Hypothesis Hshape : shape_of r = Some (SLit l :: sh).
Hypothesis Hstart : starts_outside l = true.
Hypothesis Hsafe : shape_safe (SLit l :: sh) = true.
Hypothesis Hback : runs_given_back t (SLit l :: sh) = true.
Hypothesis Hnd : NoDup (group_numbers (SLit l :: sh)).
Hypothesis Hrepl :
  forall n m c, has_ref t n = true -> exists u v, repl m c = u ++ group c n ++ v.

(** A pattern of literals and runs that passes the check keeps the line. *)
Lemma shape_keeps_line : keeps_line r repl.
Proof.
  destruct (starts_outside_cons _ Hstart) as (a0 & l' & El & Ha0).
  split.
  - intros adv s c H.
    destruct (match_here_shape _ _ _ _ _ _ Hshape H) as (parts & Hs & Hparts & _).
    inversion Hparts as [|? p ? parts' Hp Hparts']; subst.
    cbn [seg_match] in Hp. subst p. cbn [concat] in Hs.
    apply (f_equal length) in Hs. rewrite !length_app in Hs. cbn in Hs. lia.
  - intros adv a s [rest c] Ha H.
    destruct (match_here_shape _ _ _ _ _ _ Hshape H) as (parts & Hs & Hparts & _).
    inversion Hparts as [|? p ? parts' Hp Hparts']; subst.
    cbn [seg_match] in Hp. subst p. cbn [concat app] in Hs.
    injection Hs as -> _. done.
  - intros adv m rest c H.
    destruct (match_here_shape _ _ _ _ _ _ Hshape H) as (parts & Hs & Hparts & _).
    apply app_inv_tail in Hs.
    destruct (shape_last_not_nl _ _ Hparts Hsafe) as (y & z & Hy & Hz); [done|].
    rewrite Hy in Hs. apply app_inj_tail in Hs as [_ Hs]. congruence.
  - intros adv pre x rest post c H Hx Hxr Hpost.
    destruct (match_here_shape _ _ _ _ _ _ Hshape H) as (parts & Hs & Hparts & ->).
    apply app_inv_tail in Hs. symmetry in Hs.
    destruct (run_holds_line _ _ _ _ _ _ Hparts Hsafe Hs Hx Hxr Hpost)
      as (g & cl & a & b & Hin & Hcl).
    assert (In (SRun g cl) (SLit l :: sh)) as Hsg.
    { apply list_elem_of_In. by eapply elem_of_zip_l. }
    unfold runs_given_back in Hback. rewrite forallb_forall in Hback.
    specialize (Hback _ Hsg). cbn beta iota in Hback.
    apply orb_prop in Hback as [Hex|Hg].
    + exfalso. unfold run_excludes in Hex.
      apply existsb_exists in Hex as (ch & Hch & Hneg).
      apply negb_true_iff in Hneg. rewrite Forall_forall in Hcl.
      rewrite Hcl in Hneg; [done|].
      apply elem_of_app. right. apply elem_of_app. right.
      apply elem_of_app. left. by apply list_elem_of_In.
    + destruct g as [n|]; [|done].
      destruct (Hrepl n (pre ++ [nl] ++ x) (caps_of (SLit l :: sh) parts []) Hg)
        as (u & v & Hu).
      rewrite (group_caps_of _ _ _ _ _ _ Hnd Hin) in Hu.
      exists (u ++ a), (b ++ v). rewrite Hu. by rewrite <- !app_assoc.
Qed.
End Shape.

(** The check of a rule is sound. *)
Lemma rule_keeps_line_sound rl re t :
  rule_keeps_line rl = true ->
  compile (pattern rl) = Parsed re ->
  parse_template (replacement rl) = Some t ->
  keeps_line re (fun _ c => expand t c).
Proof.
  unfold rule_keeps_line. intros H Hre Ht. rewrite Hre, Ht in H.
  destruct (shape_of re) as [[|[l|] sh]|] eqn:Hsh; try discriminate.
  apply andb_prop in H as [H H4]. apply andb_prop in H as [H H3].
  apply andb_prop in H as [H1 H2]. apply bool_decide_eq_true in H4.
  apply (shape_keeps_line re _ t l sh); try done.
  intros n _ c Hn. by apply expand_has_ref.
Qed.

(** * The line [using Xunit;] through the conversion *)

Lemma line_inside_behind_nl b u s :
  line_inside true s -> line_inside b (u ++ [nl] ++ s).
Proof.
  intros (pre & post & -> & Hpost & [[_ ->]|Hpre]).
  - exists (u ++ [nl]), post. split; [by rewrite <- app_assoc|].
    split; [done|]. right. by exists u.
  - apply line_inside_app. apply line_inside_app.
    exists pre, post. split; [done|]. split; [done|]. by right.
Qed.

Lemma join_has_line (ls : list text) :
  xunit_line ∈ ls -> line_inside true (join [nl] ls).
Proof.
  induction ls as [|l0 ls IH]; intros Hin; [by apply elem_of_nil in Hin|].
  destruct ls as [|l1 ls].
  - apply list_elem_of_singleton in Hin as <-. cbn [join].
    exists [], []. rewrite app_nil_r. split; [done|]. split; by left.
  - rewrite join_cons by done. apply elem_of_cons in Hin as [<-|Hin].
    + exists [], ([nl] ++ join [nl] (l1 :: ls)). split; [done|].
      split; [right; eauto|by left].
    + apply line_inside_behind_nl. by apply IH.
Qed.

(** A text has the line exactly when one of its lines is the line. *)
Lemma has_line_inside s : has_line xunit_line s <-> line_inside true s.
Proof.
  unfold has_line. split.
  - intros H. rewrite <- (join_split nl s). by apply join_has_line.
  - intros (pre & post & -> & Hpost & Hpre).
    assert (xunit_line ∈ split nl (xunit_line ++ post)) as Hx.
    { destruct Hpost as [->|[post' ->]].
      - rewrite app_nil_r, split_line by apply xunit_line_no_nl.
        apply list_elem_of_here.
      - rewrite split_app_sep, split_line by apply xunit_line_no_nl.
        apply list_elem_of_here. }
    destruct Hpre as [[_ ->]|[pre' ->]]; [done|].
    rewrite <- app_assoc. cbn [app]. rewrite split_app_sep.
    apply elem_of_app. by right.
Qed.

Lemma conversion_rules_keep_line :
  forallb rule_keeps_line Convert.conversion_rules = true.
Proof. vm_compute. reflexivity. Qed.

Lemma apply_rule_keeps_line rl s :
  rule_keeps_line rl = true ->
  line_inside true s -> line_inside true (apply_rule rl s).
Proof.
  intros Hk Hs. unfold apply_rule, re_sub.
  destruct (compile (pattern rl)) as [re|e] eqn:Hre; [|done].
  destruct (parse_template (replacement rl)) as [t|] eqn:Ht; [|done].
  eapply single_pass_keeps_line; [by eapply rule_keeps_line_sound| |done].
  by apply sub_with_single_pass.
Qed.

Lemma rewrite_with_keeps_line rules s :
  forallb rule_keeps_line rules = true ->
  line_inside true s -> line_inside true (rewrite_with rules s).
Proof.
  unfold rewrite_with. revert s.
  induction rules as [|rl rules IH]; intros s H Hs; [done|].
  cbn [forallb] in H. apply andb_prop in H as [H1 H2]. cbn [fold_left].
  apply IH; [done|]. by apply apply_rule_keeps_line.
Qed.

(** The pattern for what is left of [await Assert.That] keeps the line,
    whatever the replacement: its run stops before a semicolon. *)
Lemma remaining_keeps_line repl : keeps_line remaining_regex repl.
Proof.
  apply (shape_keeps_line remaining_regex repl [] (txt "await Assert.That(")
           [SRun None (Bracket true [(";"%char, ";"%char)]); SLit (txt ");")]);
    try (vm_compute; reflexivity).
  - apply NoDup_nil_2.
  - intros n m c H. discriminate H.
Qed.

Lemma convert_remaining_keeps_line s :
  line_inside true s ->
  line_inside true
    (sub_with remaining_regex
       (fun m _ => Convert.replace_multiline_assertions m) s).
Proof.
  intros Hs.
  eapply single_pass_keeps_line; [apply remaining_keeps_line| |done].
  by apply sub_with_single_pass.
Qed.

Lemma without_async_xunit_line lines i :
  without_async lines i xunit_line = xunit_line.
Proof.
  unfold without_async.
  assert (is_async_signature xunit_line = false) as ->
    by (vm_compute; reflexivity).
  done.
Qed.

Lemma drop_unneeded_async_keeps_line s :
  has_line xunit_line s ->
  has_line xunit_line (Convert.drop_unneeded_async s).
Proof.
  unfold has_line, Convert.drop_unneeded_async. intros H.
  rewrite drop_async_loop_lines.
  apply elem_of_split_join; [|apply xunit_line_no_nl].
  apply list_elem_of_lookup in H as [i Hi]. apply list_elem_of_lookup.
  exists i. rewrite list_lookup_imap, Hi. cbn [fmap option_fmap option_map].
  by rewrite without_async_xunit_line.
Qed.

Lemma dedupe_usings_keeps_line l s :
  has_line l s -> has_line l (Convert.dedupe_usings s).
Proof.
  unfold has_line. intros H. rewrite dedupe_usings_lines.
  destruct (keep_first_usings_all [] _ _ H) as [Hn|Hk]; [|done].
  by apply elem_of_nil in Hn.
Qed.

Lemma converted_steps content :
  converted content
  = Convert.dedupe_usings
      (Convert.drop_unneeded_async
         (sub_with remaining_regex
            (fun m _ => Convert.replace_multiline_assertions m)
            (rewrite_with Convert.conversion_rules
               (Convert.ensure_xunit_using
                  (rewrite_with Convert.using_rules content))))).
Proof. reflexivity. Qed.

(** From the buffer behind the using step to the text written. *)
Lemma converted_keeps_line content :
  has_line xunit_line
    (Convert.ensure_xunit_using (rewrite_with Convert.using_rules content)) ->
  has_line xunit_line (converted content).
Proof.
  rewrite converted_steps.
  generalize (Convert.ensure_xunit_using
                (rewrite_with Convert.using_rules content)) as c2.
  intros c2 H. apply dedupe_usings_keeps_line, drop_unneeded_async_keeps_line.
  apply has_line_inside, convert_remaining_keeps_line.
  apply rewrite_with_keeps_line; [apply conversion_rules_keep_line|].
  by apply has_line_inside.
Qed.

Lemma has_line_contains l s : has_line l s -> contains l s = true.
Proof.
  unfold has_line. intros H. apply contains_true.
  rewrite <- (join_split nl s). revert H. generalize (split nl s) as ls.
  induction ls as [|l0 ls IH]; intros Hin; [by apply elem_of_nil in Hin|].
  destruct ls as [|l1 ls].
  - apply list_elem_of_singleton in Hin as <-. exists [], [].
    cbn [join]. by rewrite app_nil_r.
  - rewrite join_cons by done. apply elem_of_cons in Hin as [<-|Hin].
    + by exists [], ([nl] ++ join [nl] (l1 :: ls)).
    + destruct (IH Hin) as (pre & post & ->).
      exists (l0 ++ [nl] ++ pre), post. by rewrite <- !app_assoc.
Qed.

(** * The using line of xUnit (C10) *)



Example sample_test_file_converted :
  converted sample_test_file
  = txt "using System;" ++ [nl] ++ txt "using System.Linq;" ++ [nl]
    ++ txt "using Xunit;" ++ [nl] ++ [nl]
    ++ txt "namespace MCP.Tests;" ++ [nl] ++ [nl]
    ++ txt "using Late;" ++ [nl] ++ txt "[Fact]" ++ [nl].
Proof. vm_compute. reflexivity. Qed.

Lemma commented_using_converted :
  Convert.has_tunit_syntax commented_using = true
  /\ contains (txt "[Test]") (rewrite_with Convert.using_rules commented_using)
     = true
  /\ split nl (converted commented_using)
     = [txt "// using Xunit;"; txt "[Fact]"].
Proof. vm_compute. repeat split; reflexivity. Qed.

